(** * Tic Tac Toe with time travel (src/App.js)

    A shallow embedding of the three components of [App.js]:
    [calculateWinner], the [Board] click handler and status line, and the
    [Game] component's state ([history], [currentMove]) with its two
    handlers [handlePlay] and [jumpTo].

    Board arrays are JavaScript objects: [handleClick] copies the displayed
    array with [slice()] and then assigns into the copy.  The arrays
    therefore live in a store indexed by references, and [history] is a list
    of references, so that sharing and in-place assignment are visible. *)

From stdpp Require Import gmap strings pretty list fin_maps.

(** ** JavaScript values stored in a board array *)

Module JS.

(** The values the program puts in a cell are [null], ["X"] and ["O"];
    reading an index that is not in the array gives [undefined]. *)
Inductive value : Type :=
  | Undefined
  | Null
  | Str (s : string).

#[global] Instance value_eq_dec : EqDecision value.
Proof. solve_decision. Defined.

(** ToBoolean: [undefined], [null] and the empty string are falsy. *)
Definition truthy (v : value) : bool :=
  match v with
  | Str s => negb (bool_decide (s = ""))
  | _ => false
  end.

(** [v === w] on the values above. *)
Definition strict_eq (v w : value) : bool := bool_decide (v = w).

(** ToString, as used by ["Winner: " + winner]. *)
Definition to_string (v : value) : string :=
  match v with
  | Undefined => "undefined"
  | Null => "null"
  | Str s => s
  end.

(** [a[i]]: an index past the end reads [undefined]. *)
Definition get (a : list value) (i : nat) : value :=
  default Undefined (a !! i).

(** The array indices of JavaScript: the integers below [2^32 - 1]. *)
Definition array_index (i : nat) : Prop := (N.of_nat i < 4294967295)%N.

#[global] Instance array_index_dec i : Decision (array_index i).
Proof. unfold array_index. apply _. Defined.

(** [a[i] = v] for an array index [i]: an index past the end extends the
    array, the cells in between are holes and read [undefined].  For an [i]
    that is not an array index JavaScript creates an ordinary property and
    leaves the elements and the length as they are; such an [i] is outside
    what this function describes, and every statement that lets [i] range
    past the nine cells of a board assumes [array_index i]. *)
Fixpoint set (a : list value) (i : nat) (v : value) : list value :=
  match i, a with
  | 0, [] => [v]
  | 0, _ :: t => v :: t
  | S j, [] => Undefined :: set [] j v
  | S j, h :: t => h :: set t j v
  end.

End JS.

Import JS.

(** ** calculateWinner *)

Definition lines : list (nat * nat * nat) :=
  [ (0, 1, 2);
    (3, 4, 5);
    (6, 7, 8);
    (0, 3, 6);
    (1, 4, 7);
    (2, 5, 8);
    (0, 4, 8);
    (2, 4, 6) ].

(** The test of the [if] in the loop body, for one entry [[a, b, c]]. *)
Definition line_test (squares : list value) (l : nat * nat * nat) : bool :=
  let '(a, b, c) := l in
  truthy (get squares a)
  && strict_eq (get squares a) (get squares b)
  && strict_eq (get squares a) (get squares c).

(** The [for] loop, from the entry at the head of [ls] to the end. *)
Fixpoint scan (squares : list value) (ls : list (nat * nat * nat)) : value :=
  match ls with
  | [] => Null
  | (a, b, c) :: rest =>
      if line_test squares (a, b, c) then get squares a
      else scan squares rest
  end.

Definition calculateWinner (squares : list value) : value :=
  scan squares lines.

(** ** The store of board arrays *)

Abbreviation loc := positive (only parsing).
Abbreviation heap := (gmap positive (list value)) (only parsing).

(** A new array object holding [a]. *)
Definition alloc (a : list value) (h : heap) : loc * heap :=
  let l := fresh (dom h) in (l, <[l := a]> h).

(** [squares.slice()]: a new array with the same cells. *)
Definition slice (squares : loc) (h : heap) : option (loc * heap) :=
  a ← h !! squares; Some (alloc a h).

(** [arr[i] = v], in place. *)
Definition store (arr : loc) (i : nat) (v : value) (h : heap) : option heap :=
  a ← h !! arr; Some (<[arr := set a i v]> h).

(** ** Board *)

Section Board.

(** The owner's state, and what the [onPlay] prop does to it. *)
Context {St : Type}.
Variable onPlay : loc → St → St.

(** [handleClick(i)] for the props [xIsNext], [squares], [onPlay].  The
    result is [None] only when [squares] is not an array of the store. *)
Definition handleClick (xIsNext : bool) (squares : loc) (i : nat)
    (w : heap * St) : option (heap * St) :=
  let '(h, s) := w in
  sq ← h !! squares;
  if truthy (get sq i) || truthy (calculateWinner sq) then Some (h, s)
  else
    '(nextSquares, h1) ← slice squares h;
    h2 ← store nextSquares i (Str (if xIsNext then "X" else "O")) h1;
    Some (h2, onPlay nextSquares s).

End Board.

(** The status line computed by [Board] at each render. *)
Definition status (xIsNext : bool) (squares : list value) : string :=
  let winner := calculateWinner squares in
  if truthy winner then "Winner: " +:+ to_string winner
  else "Next player: " +:+ (if xIsNext then "X" else "O").

(** ** Game *)

Record game : Type := Game {
  history : list loc;
  currentMove : nat
}.

Definition xIsNext (g : game) : bool := bool_decide (currentMove g mod 2 = 0).

(** [history[currentMove]]; [None] is [undefined]. *)
Definition currentSquares (g : game) : option loc :=
  history g !! currentMove g.

Definition handlePlay (nextSquares : loc) (g : game) : game :=
  let nextHistory := take (currentMove g + 1) (history g) ++ [nextSquares] in
  {| history := nextHistory; currentMove := length nextHistory - 1 |}.

Definition jumpTo (nextMove : nat) (g : game) : game :=
  {| history := history g; currentMove := nextMove |}.

(** The label of the button for history entry [move]. *)
Definition description (move : nat) : string :=
  if bool_decide (0 < move) then "Go to move #" +:+ pretty move
  else "Go to game start".

(** [history.map((squares, move) => ...)]: one entry per element of
    [history], with its key, its label and the index its button jumps to. *)
Definition moves (g : game) : list (nat * string * nat) :=
  imap (λ move _, (move, description move, move)) (history g).

(** [useState([Array(9).fill(null)])] and [useState(0)]. *)
Definition initial : heap * game :=
  let '(l, h) := alloc (replicate 9 Null) ∅ in
  (h, {| history := [l]; currentMove := 0 |}).

(** ** The interaction surface

    The rendered page offers nine square buttons, wired to [handleClick(0)]
    ... [handleClick(8)] of a [Board] whose props are [xIsNext],
    [currentSquares] and [handlePlay], and one button per entry of
    [history], wired to [jumpTo(move)]. *)

Inductive event : Type :=
  | SquareClick (i : nat)
  | MoveClick (move : nat).

(** One interaction, run to completion.  [None]: the page has no such
    button, or [history[currentMove]] is not an array. *)
Definition dispatch (e : event) (w : heap * game) : option (heap * game) :=
  let '(h, g) := w in
  match e with
  | SquareClick i =>
      if bool_decide (i < 9) then
        squares ← currentSquares g;
        handleClick handlePlay (xIsNext g) squares i (h, g)
      else None
  | MoveClick move =>
      if bool_decide (move < length (history g)) then Some (h, jumpTo move g)
      else None
  end.

Fixpoint run (es : list event) (w : heap * game) : option (heap * game) :=
  match es with
  | [] => Some w
  | e :: es' => w' ← dispatch e w; run es' w'
  end.

(** States reached from the first render by clicks on the page. *)
Inductive reachable : heap * game → Prop :=
  | reachable_initial : reachable initial
  | reachable_dispatch w e w' :
      reachable w → dispatch e w = Some w' → reachable w'.

(** States of the session under its two operations alone: [handlePlay] with
    any array reference, [jumpTo] with the index of an existing entry. *)
Inductive session : game → Prop :=
  | session_start : session (initial.2)
  | session_play g nextSquares :
      session g → session (handlePlay nextSquares g)
  | session_jump g nextMove :
      session g → nextMove < length (history g) → session (jumpTo nextMove g).

(** ** Vocabulary of the specification *)

(** A cell is empty ([null]) or holds one of the two marks. *)
Definition mark (s : string) : Prop := s = "X" ∨ s = "O".

Definition cell (v : value) : Prop := v = Null ∨ v = Str "X" ∨ v = Str "O".

(** A snapshot: nine cells. *)
Definition snapshot (a : list value) : Prop := length a = 9 ∧ Forall cell a.

(** A triple whose three cells are non-empty and equal. *)
Definition uniform (squares : list value) (l : nat * nat * nat) : Prop :=
  get squares l.1.1 ≠ Null
  ∧ get squares l.1.1 = get squares l.1.2
  ∧ get squares l.1.1 = get squares l.2.

#[global] Instance mark_dec s : Decision (mark s).
Proof. unfold mark. apply _. Defined.
#[global] Instance cell_dec v : Decision (cell v).
Proof. unfold cell. apply _. Defined.
#[global] Instance snapshot_dec a : Decision (snapshot a).
Proof. unfold snapshot. apply _. Defined.
#[global] Instance uniform_dec squares l : Decision (uniform squares l).
Proof. unfold uniform. apply _. Defined.

(** The number of cells of [a] equal to [v]. *)
Definition count (v : value) (a : list value) : nat :=
  length (filter (λ c, c = v) a).

(** The number of non-empty cells of [a]. *)
Definition filled (a : list value) : nat :=
  length (filter (λ c, c ≠ Null) a).

(** History entry [n], stored at [l]: a snapshot with [n] marks, of which
    [ceil(n/2)] are ["X"] and [floor(n/2)] are ["O"]. *)
Definition entry_ok (h : heap) (n : nat) (l : loc) : Prop :=
  ∃ a, h !! l = Some a ∧ snapshot a ∧ filled a = n
       ∧ count (Str "X") a = (n + 1) / 2 ∧ count (Str "O") a = n / 2.

(** [a'] is [a] with one empty cell turned into a mark, and nothing else
    changed. *)
Definition one_move (a a' : list value) : Prop :=
  ∃ i, i < 9 ∧ get a i = Null ∧ (∃ m, mark m ∧ get a' i = Str m)
       ∧ ∀ j, j ≠ i → get a' j = get a j.

Definition play_inv (w : heap * game) : Prop :=
  currentMove w.2 < length (history w.2)
  ∧ (∀ n l, history w.2 !! n = Some l → entry_ok w.1 n l)
  ∧ (∀ n l l' a a',
        history w.2 !! n = Some l → history w.2 !! (n + 1) = Some l' →
        w.1 !! l = Some a → w.1 !! l' = Some a' → one_move a a').

(** ** Sample boards and sessions *)

(** The array the first render allocates. *)
Definition board0 : positive := fresh (dom (∅ : gmap positive (list value))).

(** The call log of a callback that records the arrays it is given. *)
Definition record_call (nextSquares : loc) (calls : list loc) : list loc :=
  calls ++ [nextSquares].

(** The top row filled by ["X"]. *)
Definition top_row_X : list value :=
  [Str "X"; Str "X"; Str "X"; Str "O"; Str "O"; Null; Null; Null; Null].

(** The middle row filled by ["O"], the bottom row by ["X"]. *)
Definition rows_O_then_X : list value :=
  [Null; Null; Null; Str "O"; Str "O"; Str "O"; Str "X"; Str "X"; Str "X"].

(** Three moves played, the move list clicked back to move 1. *)
Definition three_moves : game :=
  {| history := [1; 2; 3; 4]%positive; currentMove := 1 |}.

(** A move, a jump back to the start, and another move. *)
Definition branched : game :=
  handlePlay 5%positive (jumpTo 0 (handlePlay 7%positive initial.2)).

(** Two clicks on the first page: the centre, then the top left corner. *)
Definition two_clicks : list event := [SquareClick 4; SquareClick 0].

Definition played : heap * game := default initial (run two_clicks initial).

(** [handlePlay] called with the arrays of [nextSquares], one after the
    other. *)
Definition replay (g : game) (nextSquares : list loc) : game :=
  foldl (λ g' s, handlePlay s g') g nextSquares.

(** A store with one array of two cells. *)
Definition short_array : list value := [Str "X"; Null].

Definition short_store : gmap positive (list value) := {[board0 := short_array]}.

(** The mark a click puts on the board when entry [n] is displayed. *)
Definition turn_mark (n : nat) : string :=
  if bool_decide (n mod 2 = 0) then "X" else "O".

(** Every entry that has a successor shows no winner, and the successor is
    the entry with the mark of the player to move in one empty cell. *)
Definition move_inv (w : heap * game) : Prop :=
  ∀ n l l' a a',
    history w.2 !! n = Some l → history w.2 !! (n + 1) = Some l' →
    w.1 !! l = Some a → w.1 !! l' = Some a' →
    calculateWinner a = Null
    ∧ ∃ i, i < 9 ∧ get a i = Null ∧ a' = <[i := Str (turn_mark n)]> a.

(** ["X"] fills the top row in five clicks. *)
Definition win_clicks : list event :=
  [SquareClick 0; SquareClick 3; SquareClick 1; SquareClick 4; SquareClick 2].

Definition won : heap * game := default initial (run win_clicks initial).

(** Nine clicks that fill the board with no uniform triple. *)
Definition draw_clicks : list event :=
  [SquareClick 0; SquareClick 1; SquareClick 2; SquareClick 4; SquareClick 3;
   SquareClick 5; SquareClick 7; SquareClick 6; SquareClick 8].

Definition drawn : heap * game := default initial (run draw_clicks initial).

(** The two marks exchanged, every other value kept. *)
Definition swap_marks (v : value) : value :=
  if decide (v = Str "X") then Str "O"
  else if decide (v = Str "O") then Str "X"
  else v.

(** Closed decidable facts, by evaluation of their decision procedure. *)
Ltac by_decision := apply (bool_decide_unpack _); vm_compute; exact I.

(** * Properties *)

(** ** Array reads and writes *)

Lemma get_lookup (a : list value) i v : a !! i = Some v → get a i = v.
Proof. unfold get. by intros ->. Qed.

Lemma get_cell (a : list value) i : snapshot a → i < 9 → cell (get a i).
Proof.
  intros [Hlen Hall] Hi.
  destruct (lookup_lt_is_Some_2 a i) as [v Hv]; [lia|].
  rewrite (get_lookup _ _ _ Hv).
  by eapply Forall_lookup_1.
Qed.

Lemma truthy_cell v : cell v → truthy v = true ↔ v ≠ Null.
Proof. intros [->|[->| ->]]; simpl; naive_solver. Qed.

Lemma truthy_cell_mark v :
  cell v → truthy v = true → ∃ m, mark m ∧ v = Str m.
Proof. unfold mark. intros [->|[->| ->]] ?; naive_solver. Qed.

Lemma set_in_range (a : list value) i v : i < length a → set a i v = <[i := v]> a.
Proof.
  revert i. induction a as [|x a IH]; intros [|i] Hi; simpl in *; try lia; [done|].
  f_equal. apply IH. lia.
Qed.

(** ** The scan of [calculateWinner] *)

Lemma list_elem_of_middle {A} (pre post : list A) x : x ∈ pre ++ x :: post.
Proof. apply elem_of_app. right. apply elem_of_cons. by left. Qed.

Lemma lines_first_bound l : l ∈ lines → l.1.1 < 9.
Proof. unfold lines. rewrite !elem_of_cons, elem_of_nil. intros H. destruct_or!; subst; simpl; lia. Qed.

Lemma line_test_uniform squares l :
  snapshot squares → l ∈ lines → line_test squares l = true ↔ uniform squares l.
Proof.
  intros Hs Hl. pose proof (get_cell _ _ Hs (lines_first_bound _ Hl)) as Hc.
  destruct l as [[a b] c]. unfold line_test, uniform, strict_eq; simpl in *.
  rewrite !andb_true_iff, !bool_decide_eq_true, (truthy_cell _ Hc).
  tauto.
Qed.

(** The loop returns at the first entry that passes the test, and reaches
    [return null] when none does. *)
Lemma scan_cases squares ls :
  (∃ pre l post,
      ls = pre ++ l :: post
      ∧ Forall (λ l', line_test squares l' = false) pre
      ∧ line_test squares l = true
      ∧ scan squares ls = get squares l.1.1)
  ∨ (Forall (λ l, line_test squares l = false) ls ∧ scan squares ls = Null).
Proof.
  induction ls as [|[[a b] c] ls IH].
  - right. by split.
  - cbn [scan]. destruct (line_test squares (a, b, c)) eqn:Ht.
    + left. by exists [], (a, b, c), ls.
    + destruct IH as [(pre & l & post & -> & Hpre & Hl & Hs)|[Hall Hs]].
      * left. exists ((a, b, c) :: pre), l, post.
        split_and!; [done|by constructor|done|done].
      * right. split; [by constructor|done].
Qed.

Lemma scan_first squares pre l post :
  Forall (λ l', line_test squares l' = false) pre →
  line_test squares l = true →
  scan squares (pre ++ l :: post) = get squares l.1.1.
Proof.
  intros Hpre Hl. induction pre as [|[[a b] c] pre IH]; cbn [app scan].
  - destruct l as [[a b] c]. by rewrite Hl.
  - apply Forall_cons in Hpre as [-> Hpre]. by apply IH.
Qed.

Lemma scan_none squares ls :
  Forall (λ l, line_test squares l = false) ls → scan squares ls = Null.
Proof.
  induction ls as [|[[a b] c] ls IH]; cbn [scan]; [done|].
  intros [-> Hall]%Forall_cons. by apply IH.
Qed.

Lemma calculateWinner_cases squares :
  snapshot squares →
  (∃ m, mark m ∧ calculateWinner squares = Str m) ∨ calculateWinner squares = Null.
Proof.
  intros Hs. unfold calculateWinner.
  destruct (scan_cases squares lines)
    as [(pre & l & post & Hsplit & _ & Hl & ->)|[_ ->]]; [left|by right].
  assert (l ∈ lines) as Hin by (rewrite Hsplit; apply list_elem_of_middle).
  pose proof (get_cell _ _ Hs (lines_first_bound _ Hin)) as Hc.
  apply (truthy_cell_mark _ Hc).
  destruct l as [[a b] c]. unfold line_test in Hl. simpl in *.
  by apply andb_true_iff in Hl as [[? _]%andb_true_iff _].
Qed.

(** The scan against the table of the code. *)
Lemma calculateWinner_iff_lines (squares : list value) :
  snapshot squares →
  ((∃ m, mark m ∧ calculateWinner squares = Str m)
     ↔ ∃ l, l ∈ lines ∧ uniform squares l)
  ∧ (∀ m, calculateWinner squares = Str m →
       ∃ l, l ∈ lines ∧ uniform squares l ∧ get squares l.1.1 = Str m)
  ∧ ((¬ ∃ l, l ∈ lines ∧ uniform squares l) → calculateWinner squares = Null).
Proof.
  intros Hs. unfold calculateWinner.
  destruct (scan_cases squares lines)
    as [(pre & l & post & Hsplit & Hpre & Hl & Hscan)|[Hall Hscan]].
  - assert (l ∈ lines) as Hin by (rewrite Hsplit; apply list_elem_of_middle).
    pose proof (proj1 (line_test_uniform _ _ Hs Hin) Hl) as Hu.
    pose proof (get_cell _ _ Hs (lines_first_bound _ Hin)) as Hc.
    destruct (truthy_cell_mark _ Hc) as (m & Hm & Hget).
    { apply (truthy_cell _ Hc), Hu. }
    rewrite Hscan, Hget. split_and!.
    + split; [by exists l|by exists m].
    + intros m' [= <-]. by exists l.
    + intros Hno. destruct Hno. by exists l.
  - assert (∀ l, l ∈ lines → ¬ uniform squares l) as Hno.
    { intros l Hin Hu. apply (line_test_uniform _ _ Hs Hin) in Hu.
      rewrite Forall_forall in Hall. specialize (Hall l Hin). congruence. }
    rewrite Hscan. split_and!.
    + split; [by intros (m & _ & ?)|]. intros (l & Hin & Hu). by destruct (Hno l).
    + by intros m ?.
    + done.
Qed.

(** C1: on every snapshot, [calculateWinner] returns a mark exactly when one
    of the eight winning triples (the rows [0,1,2], [3,4,5], [6,7,8], the
    columns [0,3,6], [1,4,7], [2,5,8], the diagonals [0,4,8], [2,4,6]) has
    three equal non-empty cells, and the mark returned is then the one held
    by such a triple; it returns [null] when no triple is such. *)
Theorem calculateWinner_iff_uniform (squares : list value) :
  snapshot squares →
  ((∃ m, mark m ∧ calculateWinner squares = Str m)
     ↔ ∃ l, l ∈ [(0, 1, 2); (3, 4, 5); (6, 7, 8);
                   (0, 3, 6); (1, 4, 7); (2, 5, 8);
                   (0, 4, 8); (2, 4, 6)]
            ∧ uniform squares l)
  ∧ (∀ m, calculateWinner squares = Str m →
       ∃ l, l ∈ [(0, 1, 2); (3, 4, 5); (6, 7, 8);
                   (0, 3, 6); (1, 4, 7); (2, 5, 8);
                   (0, 4, 8); (2, 4, 6)]
            ∧ uniform squares l ∧ get squares l.1.1 = Str m)
  ∧ ((¬ ∃ l, l ∈ [(0, 1, 2); (3, 4, 5); (6, 7, 8);
                   (0, 3, 6); (1, 4, 7); (2, 5, 8);
                   (0, 4, 8); (2, 4, 6)]
             ∧ uniform squares l)
     → calculateWinner squares = Null).
Proof.
  intros Hs.
  destruct (calculateWinner_iff_lines squares Hs) as (Hiff & Hmark & Hnone).
  split_and!.
  - exact Hiff.
  - exact Hmark.
  - exact Hnone.
Qed.

Lemma calculateWinner_iff_uniform_witness :
  snapshot top_row_X
  ∧ ((∃ m, mark m ∧ calculateWinner top_row_X = Str m)
       ↔ ∃ l, l ∈ [(0, 1, 2); (3, 4, 5); (6, 7, 8);
                   (0, 3, 6); (1, 4, 7); (2, 5, 8);
                   (0, 4, 8); (2, 4, 6)]
              ∧ uniform top_row_X l).
Proof.
  split; [by_decision|].
  apply (calculateWinner_iff_uniform top_row_X). by_decision.
Defined.

(** The three rows, the three columns and the two diagonals, one example
    each way: a uniform column wins, a full diagonal of mixed marks does
    not. *)
Example calculateWinner_column_and_diagonal :
  calculateWinner [Null; Str "O"; Str "X";
                   Null; Str "O"; Str "X";
                   Null; Str "O"; Null] = Str "O"
  ∧ calculateWinner [Null; Null; Str "X";
                     Null; Str "X"; Null;
                     Str "X"; Null; Null] = Str "X"
  ∧ calculateWinner [Str "X"; Null; Null;
                     Null; Str "O"; Null;
                     Null; Null; Str "X"] = Null.
Proof. by split_and!. Qed.

(** C9: [lines] lists the three rows top to bottom, then the three columns
    left to right, then the diagonal [0,4,8], then the diagonal [2,4,6]; when
    entry [j] of [lines] is uniform on a snapshot and no earlier entry is,
    [calculateWinner] returns the mark of entry [j], whatever later entries
    hold. *)
Theorem calculateWinner_first_in_scan_order (squares : list value) j l :
  snapshot squares →
  lines !! j = Some l →
  uniform squares l →
  (∀ j' l', j' < j → lines !! j' = Some l' → ¬ uniform squares l') →
  lines = [(0, 1, 2); (3, 4, 5); (6, 7, 8);
           (0, 3, 6); (1, 4, 7); (2, 5, 8);
           (0, 4, 8); (2, 4, 6)]
  ∧ calculateWinner squares = get squares l.1.1
  ∧ ∃ m, mark m ∧ calculateWinner squares = Str m.
Proof.
  intros Hs Hj Hu Hbefore. split; [done|].
  assert (calculateWinner squares = get squares l.1.1) as Hw.
  { unfold calculateWinner.
    rewrite <-(take_drop_middle _ _ _ Hj). apply scan_first.
    - apply Forall_forall. intros l' Hin.
      apply list_elem_of_lookup in Hin as [j' Hj'].
      pose proof (lookup_lt_Some _ _ _ Hj') as Hlt. rewrite length_take in Hlt.
      rewrite lookup_take_lt in Hj' by lia.
      destruct (line_test squares l') eqn:Ht; [|done].
      destruct (Hbefore j' l'); [lia|done|].
      apply (line_test_uniform _ _ Hs); [|done]. by eapply list_elem_of_lookup_2.
    - apply (line_test_uniform _ _ Hs); [|done]. by eapply list_elem_of_lookup_2. }
  split; [done|]. rewrite Hw.
  assert (l ∈ lines) as Hin by (by eapply list_elem_of_lookup_2).
  pose proof (get_cell _ _ Hs (lines_first_bound _ Hin)) as Hc.
  apply (truthy_cell_mark _ Hc), (truthy_cell _ Hc), Hu.
Qed.

Lemma calculateWinner_first_in_scan_order_witness :
  snapshot rows_O_then_X
  ∧ uniform rows_O_then_X (6, 7, 8)
  ∧ calculateWinner rows_O_then_X = get rows_O_then_X 3
  ∧ ∃ m, mark m ∧ calculateWinner rows_O_then_X = Str m.
Proof.
  split; [by_decision|]. split; [by_decision|].
  apply (calculateWinner_first_in_scan_order rows_O_then_X 1 (3, 4, 5)).
  - by_decision.
  - reflexivity.
  - by_decision.
  - intros [|j'] l' Hlt; [|lia]. intros [= <-]. by_decision.
Defined.

(** ** The status line *)

(** C7: on a snapshot, the status line is ["Winner: "] followed by the mark
    [calculateWinner] returns when it returns one, and otherwise
    ["Next player: "] followed by ["X"] when [xIsNext] holds and by ["O"]
    when it does not; one of the two cases always applies. *)
Theorem status_winner_or_next (next : bool) (squares : list value) :
  snapshot squares →
  (∃ m, mark m ∧ calculateWinner squares = Str m
        ∧ status next squares = "Winner: " +:+ m)
  ∨ (calculateWinner squares = Null
     ∧ status next squares = "Next player: " +:+ (if next then "X" else "O")).
Proof.
  intros Hs. unfold status.
  destruct (calculateWinner_cases squares Hs) as [(m & Hm & ->)| ->].
  - left. exists m. split_and!; [done..|]. by destruct Hm as [-> | ->].
  - by right.
Qed.

Lemma status_winner_or_next_witness :
  snapshot top_row_X
  ∧ ((∃ m, mark m ∧ calculateWinner top_row_X = Str m
           ∧ status false top_row_X = "Winner: " +:+ m)
     ∨ (calculateWinner top_row_X = Null
        ∧ status false top_row_X = "Next player: " +:+ "O")).
Proof.
  split; [by_decision|].
  apply (status_winner_or_next false top_row_X). by_decision.
Defined.

Example status_top_row_X : status false top_row_X = "Winner: X".
Proof. reflexivity. Qed.

Example status_start :
  status true (replicate 9 Null) = "Next player: X"
  ∧ status false (replicate 9 Null) = "Next player: O".
Proof. by split. Qed.

(** ** The session: [handlePlay], [jumpTo], [xIsNext] *)

Lemma handlePlay_length nextSquares g :
  length (history (handlePlay nextSquares g)) =
  currentMove (handlePlay nextSquares g) + 1.
Proof. unfold handlePlay; simpl. rewrite length_app; simpl. lia. Qed.

Lemma handlePlay_currentMove nextSquares g :
  currentMove g < length (history g) →
  currentMove (handlePlay nextSquares g) = currentMove g + 1.
Proof.
  intros Hk. unfold handlePlay; simpl.
  rewrite length_app, length_take; simpl. lia.
Qed.

Lemma handlePlay_lookup_old nextSquares g j :
  j ≤ currentMove g → currentMove g < length (history g) →
  history (handlePlay nextSquares g) !! j = history g !! j.
Proof.
  intros Hj Hk. unfold handlePlay; simpl.
  rewrite lookup_app_l by (rewrite length_take; lia).
  apply lookup_take_lt. lia.
Qed.

Lemma handlePlay_lookup_new nextSquares g :
  currentMove g < length (history g) →
  history (handlePlay nextSquares g) !! (currentMove g + 1) = Some nextSquares.
Proof.
  intros Hk. unfold handlePlay; simpl.
  rewrite lookup_app_r by (rewrite length_take; lia).
  rewrite length_take. by replace (_ - _) with 0 by lia.
Qed.

(** C2: in a session state whose current move index [k] points into the
    history [H], [handlePlay s] makes the history the entries [0..k] of [H]
    followed by [s] (entries [0..k] are kept, entry [k+1] is [s], nothing
    follows it) and the current move index [k+1]; after it the history's
    length is the current move index plus one; and [jumpTo j] (for an
    existing entry [j]) followed by [handlePlay s] leaves a history of
    length [j+2] whose entry [j+1] is [s], however long [H] was. *)
Theorem handlePlay_truncates_then_appends (g : game) (s : loc) :
  currentMove g < length (history g) →
  let k := currentMove g in
  let g' := handlePlay s g in
  history g' = take (k + 1) (history g) ++ [s]
  ∧ (∀ j, j ≤ k → history g' !! j = history g !! j)
  ∧ history g' !! (k + 1) = Some s
  ∧ length (history g') = k + 2
  ∧ currentMove g' = k + 1
  ∧ length (history g') = currentMove g' + 1
  ∧ ∀ j, j < length (history g) →
      length (history (handlePlay s (jumpTo j g))) = j + 2
      ∧ history (handlePlay s (jumpTo j g)) !! (j + 1) = Some s.
Proof.
  intros Hk k g'. subst k g'.
  pose proof (handlePlay_length s g) as Hlen.
  pose proof (handlePlay_currentMove s g Hk) as Hcur.
  split_and!.
  - done.
  - intros j Hj. by apply handlePlay_lookup_old.
  - by apply handlePlay_lookup_new.
  - lia.
  - done.
  - done.
  - intros j Hj. split.
    + rewrite handlePlay_length, handlePlay_currentMove; simpl; lia.
    + by apply (handlePlay_lookup_new s (jumpTo j g)).
Qed.

Lemma handlePlay_truncates_then_appends_witness :
  currentMove three_moves < length (history three_moves)
  ∧ history (handlePlay 9%positive three_moves) = [1; 2; 9]%positive
  ∧ currentMove (handlePlay 9%positive three_moves) = 2.
Proof.
  split; [vm_compute; lia|].
  pose proof (handlePlay_truncates_then_appends three_moves 9%positive) as H.
  simpl in H. destruct H as (H1 & _ & _ & _ & H2 & _); [lia|]. by split.
Defined.

(** After any [handlePlay], whatever the state before it, the history's
    length is the current move index plus one. *)
Lemma handlePlay_length_any nextSquares g :
  let g' := handlePlay nextSquares g in
  length (history g') = currentMove g' + 1.
Proof. apply handlePlay_length. Qed.

(** C5: [jumpTo index], for the index of an existing history entry, makes
    [index] the current move index and leaves the history as it was (same
    length, same entries), so the list of move buttons is the same and has
    one button per original entry; the click on the button of entry [index]
    does that and leaves every stored array untouched. *)
Theorem jumpTo_keeps_history (h : gmap positive (list value)) (g : game) (index : nat) :
  index < length (history g) →
  currentMove (jumpTo index g) = index
  ∧ history (jumpTo index g) = history g
  ∧ moves (jumpTo index g) = moves g
  ∧ length (moves (jumpTo index g)) = length (history g)
  ∧ dispatch (MoveClick index) (h, g) = Some (h, jumpTo index g).
Proof.
  intros Hi. split_and!; try done.
  - unfold moves. by rewrite length_imap.
  - unfold dispatch. by rewrite bool_decide_eq_true_2.
Qed.

Lemma jumpTo_keeps_history_witness :
  0 < length (history three_moves)
  ∧ currentMove (jumpTo 0 three_moves) = 0
  ∧ history (jumpTo 0 three_moves) = history three_moves
  ∧ moves (jumpTo 0 three_moves) = moves three_moves
  ∧ length (moves (jumpTo 0 three_moves)) = length (history three_moves)
  ∧ dispatch (MoveClick 0) (∅, three_moves) = Some (∅, jumpTo 0 three_moves).
Proof.
  split; [vm_compute; lia|].
  apply (jumpTo_keeps_history ∅ three_moves 0). vm_compute; lia.
Defined.

Example moves_three_moves :
  moves three_moves =
  [(0, "Go to game start", 0); (1, "Go to move #1", 1);
   (2, "Go to move #2", 2); (3, "Go to move #3", 3)].
Proof. reflexivity. Qed.

(** C6: [xIsNext] holds exactly when the current move index is even, so the
    mark of the next player, [xIsNext ? "X" : "O"], is ["X"] exactly when the
    index is even and ["O"] exactly when it is odd. *)
Theorem xIsNext_iff_even (g : game) :
  (xIsNext g = true ↔ Nat.Even (currentMove g))
  ∧ ((if xIsNext g then "X" else "O") = "X" ↔ Nat.Even (currentMove g))
  ∧ ((if xIsNext g then "X" else "O") = "O" ↔ Nat.Odd (currentMove g)).
Proof.
  unfold xIsNext.
  assert (Nat.Even (currentMove g) ↔ currentMove g mod 2 = 0) as HE.
  { rewrite <-Nat.even_spec, Nat.even_spec. split.
    - intros [q ->]. rewrite Nat.mul_comm. apply Nat.Div0.mod_mul.
    - intros Hm. exists (currentMove g / 2).
      pose proof (Nat.div_mod_eq (currentMove g) 2). lia. }
  assert (Nat.Odd (currentMove g) ↔ currentMove g mod 2 ≠ 0) as HO.
  { rewrite <-HE. rewrite <-Nat.even_spec, <-Nat.odd_spec, <-Nat.negb_even.
    by destruct (Nat.even _); split. }
  rewrite HE, HO. case_bool_decide as Hm; split_and!; split; intros; done || lia.
Qed.

(** C8: in every state of a session (from the first render, under
    [handlePlay] with any array and [jumpTo] with the index of an existing
    entry), the current move index is below the history's length, so
    [history[currentMove]] is an entry of the history. *)
Theorem session_currentMove_in_range (g : game) :
  session g →
  currentMove g < length (history g) ∧ is_Some (currentSquares g).
Proof.
  intros Hg.
  assert (currentMove g < length (history g)) as Hlt.
  { induction Hg as [|g s _ _|g i _ _ Hi].
    - simpl. lia.
    - rewrite handlePlay_length. lia.
    - done. }
  split; [done|]. by apply lookup_lt_is_Some_2.
Qed.

Lemma session_currentMove_in_range_witness :
  session branched
  ∧ currentMove branched < length (history branched)
  ∧ is_Some (currentSquares branched).
Proof.
  assert (session branched) as Hg.
  { apply session_play, session_jump; [apply session_play, session_start|].
    vm_compute; lia. }
  split; [exact Hg|]. exact (session_currentMove_in_range branched Hg).
Defined.

(** ** The click handler of [Board] *)

Section handleClick.

Context {St : Type} (onPlay : loc → St → St).
Implicit Types (h : gmap positive (list value)) (sq : list value).

(** The early [return]. *)
Lemma handleClick_reject next squares i h s sq :
  h !! squares = Some sq →
  truthy (get sq i) || truthy (calculateWinner sq) = true →
  handleClick onPlay next squares i (h, s) = Some (h, s).
Proof. intros Hsq Hc. unfold handleClick; simpl. by rewrite Hsq; simpl; rewrite Hc. Qed.

(** The other path: the copy is a new object, the assignment goes into
    the copy, and [onPlay] receives the copy. *)
Lemma handleClick_accept next squares i h s sq :
  h !! squares = Some sq →
  truthy (get sq i) || truthy (calculateWinner sq) = false →
  i < length sq →
  handleClick onPlay next squares i (h, s) =
  Some (<[fresh (dom h) := <[i := Str (if next then "X" else "O")]> sq]> h,
        onPlay (fresh (dom h)) s).
Proof.
  intros Hsq Hc Hi. unfold handleClick, slice, store, alloc; simpl.
  rewrite Hsq; simpl. rewrite Hc; simpl.
  rewrite lookup_insert_eq; simpl.
  by rewrite insert_insert_eq, set_in_range.
Qed.

End handleClick.

Lemma snapshot_insert (a : list value) i m :
  snapshot a → mark m → snapshot (<[i := Str m]> a).
Proof.
  intros [Hlen Hall] Hm. split; [by rewrite length_insert|].
  apply Forall_insert; [done|]. destruct Hm as [-> | ->]; unfold cell; auto.
Qed.

Lemma get_insert_eq (a : list value) i v : i < length a → get (<[i := v]> a) i = v.
Proof. intros Hi. unfold get. by rewrite list_lookup_insert_eq. Qed.

Lemma get_insert_ne (a : list value) i j v : i ≠ j → get (<[i := v]> a) j = get a j.
Proof. intros Hi. unfold get. by rewrite list_lookup_insert_ne. Qed.

Lemma get_Null_lookup (a : list value) i : get a i = Null → a !! i = Some Null.
Proof. unfold get. by destruct (a !! i) as [v|]; simpl; [intros ->|]. Qed.

Lemma cell_falsy_cases (a : list value) i :
  snapshot a → i < 9 →
  truthy (get a i) || truthy (calculateWinner a) = false
  ↔ get a i = Null ∧ calculateWinner a = Null.
Proof.
  intros Hs Hi. pose proof (get_cell _ _ Hs Hi) as Hc.
  rewrite orb_false_iff. split.
  - intros [Hg Hw]. split.
    + destruct (decide (get a i = Null)) as [|Hne]; [done|].
      apply (truthy_cell _ Hc) in Hne. congruence.
    + destruct (calculateWinner_cases a Hs) as [(m & [-> | ->] & Hm)|]; [| |done];
        by rewrite Hm in Hw.
  - by intros [-> ->].
Qed.

Lemma winner_of_uniform squares l :
  snapshot squares → l ∈ lines → uniform squares l →
  ∃ m, mark m ∧ calculateWinner squares = Str m.
Proof.
  intros Hs Hin Hu.
  destruct (calculateWinner_cases squares Hs) as [|Hnull]; [done|].
  apply (line_test_uniform _ _ Hs Hin) in Hu.
  unfold calculateWinner in Hnull.
  destruct (scan_cases squares lines)
    as [(pre & l' & post & Hsplit & _ & Hl' & Hscan)|[Hall _]].
  - assert (l' ∈ lines) as Hin' by (rewrite Hsplit; apply list_elem_of_middle).
    pose proof (get_cell _ _ Hs (lines_first_bound _ Hin')) as Hc.
    apply (line_test_uniform _ _ Hs Hin') in Hl' as [Hne _].
    rewrite Hscan in Hnull. by destruct Hne.
  - rewrite Forall_forall in Hall. specialize (Hall l Hin). congruence.
Qed.

(** C3: on a snapshot, a click on cell [i] (one of the nine) changes nothing
    when cell [i] is non-empty or when [calculateWinner] reports a winner
    (in particular when some triple of [lines] is uniform): [onPlay] is not
    called, whatever the callback and its owner's state are, no array is
    created or changed, and in the game the history and the current move
    index stay as they were. *)
Theorem handleClick_ignores_occupied_or_won
    (h : gmap positive (list value)) (squares : loc) (sq : list value)
    (next : bool) (i : nat) :
  h !! squares = Some sq →
  snapshot sq →
  i < 9 →
  get sq i ≠ Null ∨ calculateWinner sq ≠ Null ∨ (∃ l, l ∈ lines ∧ uniform sq l) →
  (∀ (St : Type) (onPlay : loc → St → St) (s : St),
      handleClick onPlay next squares i (h, s) = Some (h, s))
  ∧ handleClick record_call next squares i (h, []) = Some (h, [])
  ∧ (∀ g, currentSquares g = Some squares →
          dispatch (SquareClick i) (h, g) = Some (h, g)).
Proof.
  intros Hsq Hs Hi Hcase.
  assert (truthy (get sq i) || truthy (calculateWinner sq) = true) as Hc.
  { apply orb_true_iff. destruct Hcase as [Hne|[Hw|(l & Hin & Hu)]].
    - left. by apply (truthy_cell _ (get_cell _ _ Hs Hi)).
    - right. destruct (calculateWinner_cases sq Hs) as [(m & [-> | ->] & ->)|]; done.
    - right. by destruct (winner_of_uniform sq l Hs Hin Hu) as (m & [-> | ->] & ->). }
  split_and!.
  - intros St onPlay s. by eapply handleClick_reject.
  - by eapply handleClick_reject.
  - intros g Hg. unfold dispatch. rewrite bool_decide_eq_true_2 by done.
    rewrite Hg; simpl. by eapply handleClick_reject.
Qed.

Lemma handleClick_ignores_occupied_or_won_witness :
  ({[board0 := top_row_X]} : gmap positive (list value)) !! board0 = Some top_row_X
  ∧ snapshot top_row_X
  ∧ 8 < 9
  ∧ calculateWinner top_row_X ≠ Null
  ∧ handleClick record_call false board0 8 ({[board0 := top_row_X]}, [])
    = Some ({[board0 := top_row_X]}, []).
Proof.
  split; [by_decision|]. split; [by_decision|]. split; [lia|]. split; [by_decision|].
  apply (handleClick_ignores_occupied_or_won
           {[board0 := top_row_X]} board0 top_row_X false 8).
  - by_decision.
  - by_decision.
  - lia.
  - right; left. by_decision.
Defined.

(** C4: on a snapshot with cell [i] empty and no winner, a click on cell [i]
    calls [onPlay] once, with a new array object that holds ["X"] at [i] when
    [xIsNext] holds and ["O"] when it does not, and the displayed array's
    value at every other index; every array that existed before the click
    (the displayed one, and so every one the history refers to) holds what
    it held: the store only gains the new array. *)
Theorem handleClick_copies_then_sets
    {St : Type} (onPlay : loc → St → St)
    (h : gmap positive (list value)) (s : St)
    (squares : loc) (sq : list value) (next : bool) (i : nat) :
  h !! squares = Some sq →
  snapshot sq →
  i < 9 →
  get sq i = Null →
  calculateWinner sq = Null →
  ∃ (nextSquares : loc) (sq' : list value),
    handleClick onPlay next squares i (h, s)
    = Some (<[nextSquares := sq']> h, onPlay nextSquares s)
    ∧ h !! nextSquares = None
    ∧ snapshot sq'
    ∧ get sq' i = Str (if next then "X" else "O")
    ∧ (∀ j, j ≠ i → get sq' j = get sq j)
    ∧ (∀ l a, h !! l = Some a → (<[nextSquares := sq']> h) !! l = Some a)
    ∧ (<[nextSquares := sq']> h) !! squares = Some sq.
Proof.
  intros Hsq Hs Hi Hempty Hnone.
  pose proof (proj1 Hs) as Hlen.
  assert (h !! fresh (dom h) = None) as Hfresh.
  { apply not_elem_of_dom, is_fresh. }
  assert (∀ l a, h !! l = Some a →
            (<[fresh (dom h) := <[i := Str (if next then "X" else "O")]> sq]> h) !! l
            = Some a) as Hframe.
  { intros l a Hl. rewrite lookup_insert_ne; [done|]. congruence. }
  eexists _, _. split_and!.
  - apply handleClick_accept; [done| |lia].
    apply (cell_falsy_cases _ _ Hs Hi). by split.
  - done.
  - apply snapshot_insert; [done|]. unfold mark. destruct next; auto.
  - apply get_insert_eq. lia.
  - intros j Hj. by apply get_insert_ne.
  - done.
  - by apply Hframe.
Qed.

Lemma handleClick_copies_then_sets_witness :
  initial.1 !! board0 = Some (replicate 9 Null)
  ∧ snapshot (replicate 9 Null)
  ∧ ∃ (nextSquares : loc) (sq' : list value),
      handleClick handlePlay true board0 4 initial
      = Some (<[nextSquares := sq']> (initial.1), handlePlay nextSquares initial.2)
      ∧ initial.1 !! nextSquares = None
      ∧ snapshot sq'
      ∧ get sq' 4 = Str "X"
      ∧ (∀ j, j ≠ 4 → get sq' j = get (replicate 9 Null) j)
      ∧ (∀ l a, initial.1 !! l = Some a →
                (<[nextSquares := sq']> (initial.1)) !! l = Some a)
      ∧ (<[nextSquares := sq']> (initial.1)) !! board0 = Some (replicate 9 Null).
Proof.
  split; [by_decision|]. split; [by_decision|].
  apply (handleClick_copies_then_sets handlePlay initial.1 initial.2
           board0 (replicate 9 Null) true 4).
  - by_decision.
  - by_decision.
  - lia.
  - reflexivity.
  - reflexivity.
Defined.

(** ** Histories built by clicks *)

Lemma filter_length_insert (P : value → Prop) `{!∀ x, Decision (P x)}
    (a : list value) i x y :
  a !! i = Some x →
  length (filter P (<[i := y]> a)) + (if decide (P x) then 1 else 0)
  = length (filter P a) + (if decide (P y) then 1 else 0).
Proof.
  revert i. induction a as [|z a IH]; intros [|i] Hi; simplify_eq/=.
  - rewrite !filter_cons.
    destruct (decide (P x)), (decide (P y)); simpl; lia.
  - specialize (IH i Hi). rewrite !filter_cons.
    destruct (decide (P z)); simpl; lia.
Qed.

Lemma handlePlay_lookup_inv nextSquares g n l :
  currentMove g < length (history g) →
  history (handlePlay nextSquares g) !! n = Some l →
  (n ≤ currentMove g ∧ history g !! n = Some l)
  ∨ (n = currentMove g + 1 ∧ l = nextSquares).
Proof.
  intros Hk Hn.
  pose proof (lookup_lt_Some _ _ _ Hn) as Hlt.
  rewrite handlePlay_length, handlePlay_currentMove in Hlt by done.
  destruct (decide (n ≤ currentMove g)) as [Hle|Hgt].
  - left. split; [done|]. by rewrite handlePlay_lookup_old in Hn.
  - right. assert (n = currentMove g + 1) as -> by lia. split; [done|].
    rewrite handlePlay_lookup_new in Hn by done. congruence.
Qed.

Lemma play_inv_initial : play_inv initial.
Proof.
  split_and!.
  - simpl. lia.
  - intros [|n] l Hn; [|done]. injection Hn as <-.
    exists (replicate 9 Null). split_and!; by_decision.
  - intros [|n] l l' a a' _ Hn'; done.
Qed.

Lemma half_even k :
  k mod 2 = 0 → (k + 1 + 1) / 2 = (k + 1) / 2 + 1 ∧ (k + 1) / 2 = k / 2.
Proof.
  intros Hk.
  pose proof (Nat.div_mod_eq k 2). pose proof (Nat.div_mod_eq (k + 1) 2).
  pose proof (Nat.div_mod_eq (k + 1 + 1) 2).
  pose proof (Nat.mod_upper_bound (k + 1) 2). pose proof (Nat.mod_upper_bound (k + 1 + 1) 2).
  lia.
Qed.

Lemma half_odd k :
  k mod 2 ≠ 0 → (k + 1 + 1) / 2 = (k + 1) / 2 ∧ (k + 1) / 2 = k / 2 + 1.
Proof.
  intros Hk.
  pose proof (Nat.div_mod_eq k 2). pose proof (Nat.div_mod_eq (k + 1) 2).
  pose proof (Nat.div_mod_eq (k + 1 + 1) 2). pose proof (Nat.mod_upper_bound k 2).
  pose proof (Nat.mod_upper_bound (k + 1) 2). pose proof (Nat.mod_upper_bound (k + 1 + 1) 2).
  lia.
Qed.

(** The array a click appends: one more mark than the displayed one, of the
    player whose turn the index gives. *)
Lemma entry_ok_insert (h : gmap positive (list value)) (g : game) l a i :
  h !! l = None →
  snapshot a → filled a = currentMove g →
  count (Str "X") a = (currentMove g + 1) / 2 →
  count (Str "O") a = currentMove g / 2 →
  get a i = Null →
  entry_ok (<[l := <[i := Str (if xIsNext g then "X" else "O")]> a]> h)
           (currentMove g + 1) l.
Proof.
  intros Hl Hs Hf HX HO Hnull. apply get_Null_lookup in Hnull.
  exists (<[i := Str (if xIsNext g then "X" else "O")]> a).
  assert (mark (if xIsNext g then "X" else "O")) as Hm
    by (unfold mark; destruct (xIsNext g); auto).
  split; [by rewrite lookup_insert_eq|]. split; [by apply snapshot_insert|].
  unfold filled, count in *.
  pose proof (filter_length_insert (λ c, c ≠ Null) a i Null
                (Str (if xIsNext g then "X" else "O")) Hnull) as Hfilled.
  pose proof (filter_length_insert (λ c, c = Str "X") a i Null
                (Str (if xIsNext g then "X" else "O")) Hnull) as HcX.
  pose proof (filter_length_insert (λ c, c = Str "O") a i Null
                (Str (if xIsNext g then "X" else "O")) Hnull) as HcO.
  revert Hfilled HcX HcO. unfold xIsNext. case_bool_decide as Hpar.
  - destruct (half_even _ Hpar) as [E1 E2]. rewrite E1, E2.
    repeat case_decide; simplify_eq; lia.
  - destruct (half_odd _ Hpar) as [E1 E2]. rewrite E1, E2.
    repeat case_decide; simplify_eq; lia.
Qed.

Lemma one_move_insert (a : list value) i m :
  snapshot a → i < 9 → get a i = Null → mark m → one_move a (<[i := Str m]> a).
Proof.
  intros [Hlen _] Hi Hnull Hm. exists i. split_and!; [done..| |].
  - exists m. split; [done|]. apply get_insert_eq. lia.
  - intros j Hj. by apply get_insert_ne.
Qed.

Lemma play_inv_dispatch w e w' :
  play_inv w → dispatch e w = Some w' → play_inv w'.
Proof.
  destruct w as [h g]. intros (Hk & Hent & Hadj) Hd; simpl in *.
  destruct e as [i|move]; simpl in Hd.
  - case_bool_decide as Hi; [|done].
    destruct (currentSquares g) as [squares|] eqn:Hcs; [|done].
    change (handleClick handlePlay (xIsNext g) squares i (h, g) = Some w') in Hd.
    destruct (Hent _ _ Hcs) as (a & Ha & Hs & Hf & HX & HO).
    destruct (truthy (get a i) || truthy (calculateWinner a)) eqn:Hc.
    { rewrite (handleClick_reject _ _ _ _ _ _ a Ha Hc) in Hd.
      injection Hd as <-. by split_and!. }
    rewrite (handleClick_accept _ _ _ _ _ _ a Ha Hc) in Hd by (destruct Hs; lia).
    injection Hd as <-.
    apply (cell_falsy_cases _ _ Hs Hi) in Hc as [Hnull Hnone].
    assert (h !! fresh (dom h) = None) as Hfresh by apply not_elem_of_dom, is_fresh.
    assert (∀ l b, h !! l = Some b → l ≠ fresh (dom h)) as Hold by (intros; congruence).
    pose proof (entry_ok_insert h g _ a i Hfresh Hs Hf HX HO Hnull) as Hnew.
    split_and!; cbn [fst snd].
    + rewrite handlePlay_length. lia.
    + intros n l Hn. apply handlePlay_lookup_inv in Hn as [[Hle Hn]|[-> ->]]; [|done..].
      destruct (Hent n l Hn) as (b & Hb & Hrest). exists b. split; [|done].
      rewrite lookup_insert_ne; [done|]. symmetry. by eapply Hold.
    + intros n l l' b b' Hn Hn' Hb Hb'.
      apply handlePlay_lookup_inv in Hn as [[Hle Hn]|[-> ->]]; [| |done].
      * destruct (Hent n l Hn) as (b0 & Hb0 & _).
        rewrite lookup_insert_ne in Hb by (symmetry; by eapply Hold).
        apply handlePlay_lookup_inv in Hn' as [[Hle' Hn']|[Heq ->]]; [| |done].
        -- destruct (Hent _ l' Hn') as (b1 & Hb1 & _).
           rewrite lookup_insert_ne in Hb' by (symmetry; by eapply Hold).
           exact (Hadj n l l' b b' Hn Hn' Hb Hb').
        -- assert (n = currentMove g) as -> by lia.
           rewrite lookup_insert_eq in Hb'. injection Hb' as <-.
           unfold currentSquares in Hcs. assert (b = a) as -> by congruence.
           apply one_move_insert; [done..|]. unfold mark. destruct (xIsNext g); auto.
      * apply lookup_lt_Some in Hn'.
        rewrite handlePlay_length, handlePlay_currentMove in Hn' by done. lia.
  - case_bool_decide as Hm; [|done]. injection Hd as <-. by split_and!.
Qed.

Lemma reachable_play_inv w : reachable w → play_inv w.
Proof.
  induction 1 as [|w e w' _ IH Hd]; [apply play_inv_initial|].
  by eapply play_inv_dispatch.
Qed.

(** C10: in every state reached from the first render by clicks on squares
    and on move buttons, history entry [n] is a snapshot with exactly [n]
    non-empty cells, [ceil(n/2)] of them ["X"] and [floor(n/2)] of them
    ["O"], and the entry after it, when there is one, is that snapshot with
    one empty cell turned into a mark and every other cell the same. *)
Theorem reachable_history_counts (h : gmap positive (list value)) (g : game) n l :
  reachable (h, g) →
  history g !! n = Some l →
  ∃ a, h !! l = Some a
       ∧ snapshot a
       ∧ filled a = n
       ∧ count (Str "X") a = (n + 1) / 2
       ∧ count (Str "O") a = n / 2
       ∧ ∀ l', history g !! (n + 1) = Some l' →
           ∃ a', h !! l' = Some a' ∧ one_move a a'.
Proof.
  intros (Hk & Hent & Hadj)%reachable_play_inv Hn; simpl in *.
  destruct (Hent n l Hn) as (a & Ha & Hs & Hf & HX & HO).
  exists a. split_and!; [done..|].
  intros l' Hn'. destruct (Hent _ l' Hn') as (a' & Ha' & _).
  exists a'. split; [done|]. exact (Hadj n l l' a a' Hn Hn' Ha Ha').
Qed.

Lemma run_reachable es w w' : reachable w → run es w = Some w' → reachable w'.
Proof.
  revert w. induction es as [|e es IH]; intros w Hw Hrun; simpl in Hrun.
  - by injection Hrun as <-.
  - destruct (dispatch e w) as [w1|] eqn:Hd; [|done].
    eapply IH; [|exact Hrun]. by eapply reachable_dispatch.
Qed.

Lemma reachable_history_counts_witness :
  reachable (played.1, played.2)
  ∧ history played.2 !! 1 = Some 2%positive
  ∧ ∃ a, played.1 !! 2%positive = Some a
         ∧ snapshot a
         ∧ filled a = 1
         ∧ count (Str "X") a = (1 + 1) / 2
         ∧ count (Str "O") a = 1 / 2
         ∧ ∀ l', history played.2 !! (1 + 1) = Some l' →
             ∃ a', played.1 !! l' = Some a' ∧ one_move a a'.
Proof.
  assert (reachable (played.1, played.2)) as Hr.
  { apply (run_reachable two_clicks initial); [apply reachable_initial|].
    vm_compute. reflexivity. }
  split; [exact Hr|]. split; [vm_compute; reflexivity|].
  apply (reachable_history_counts played.1 played.2 1 2%positive Hr).
  vm_compute; reflexivity.
Defined.

(** ** The scenarios of the specification *)

(** On the empty board ["X"] plays cell 4: the new array has ["X"] at 4, no
    winner, and the status line names ["O"]. *)
Example first_move_centre :
  ∃ h g a,
    run [SquareClick 4] initial = Some (h, g)
    ∧ currentSquares g = Some 2%positive
    ∧ h !! 2%positive = Some a
    ∧ a = [Null; Null; Null; Null; Str "X"; Null; Null; Null; Null]
    ∧ calculateWinner a = Null
    ∧ status (xIsNext g) a = "Next player: O".
Proof. eexists _, _, _. split_and!; by vm_compute. Qed.

(** Three moves, a jump to move 1, one more move: three entries remain. *)
Example branch_after_jump :
  (snd <$> run [SquareClick 4; SquareClick 0; SquareClick 8;
                MoveClick 1; SquareClick 2] initial)
  = Some {| history := [1; 2; 5]%positive; currentMove := 2 |}.
Proof. by vm_compute. Qed.

(** A click past a filled top row appends nothing. *)
Example click_after_win :
  let clicks := [SquareClick 0; SquareClick 3; SquareClick 1;
                 SquareClick 4; SquareClick 2] in
  run (clicks ++ [SquareClick 8]) initial = run clicks initial
  ∧ (length ∘ history ∘ snd <$> run clicks initial) = Some 6.
Proof. by vm_compute. Qed.

(** * Further properties of the code *)

(** ** [calculateWinner] on arbitrary arrays *)

Lemma lines_increasing l : l ∈ lines → l.1.1 < l.1.2 ∧ l.1.2 < l.2 ∧ l.2 < 9.
Proof.
  unfold lines. rewrite !elem_of_cons, elem_of_nil.
  intros H. destruct_or!; subst; simpl; lia.
Qed.

Lemma truthy_get_lookup (a : list value) i :
  truthy (get a i) = true → a !! i = Some (get a i).
Proof. unfold get. by destruct (a !! i). Qed.

(** What a passed test says about the three cells. *)
Lemma line_test_lookup squares l :
  line_test squares l = true →
  truthy (get squares l.1.1) = true
  ∧ squares !! l.1.1 = Some (get squares l.1.1)
  ∧ squares !! l.1.2 = Some (get squares l.1.1)
  ∧ squares !! l.2 = Some (get squares l.1.1).
Proof.
  destruct l as [[a b] c]. unfold line_test, strict_eq; simpl.
  rewrite !andb_true_iff, !bool_decide_eq_true. intros [[Ht Hb] Hc].
  split_and!; [done|by apply truthy_get_lookup|..].
  - rewrite Hb. apply truthy_get_lookup. by rewrite <-Hb.
  - rewrite Hc. apply truthy_get_lookup. by rewrite <-Hc.
Qed.

Lemma winner_line squares :
  calculateWinner squares = Null
  ∨ ∃ l, l ∈ lines
         ∧ truthy (calculateWinner squares) = true
         ∧ squares !! l.1.1 = Some (calculateWinner squares)
         ∧ squares !! l.1.2 = Some (calculateWinner squares)
         ∧ squares !! l.2 = Some (calculateWinner squares).
Proof.
  unfold calculateWinner.
  destruct (scan_cases squares lines)
    as [(pre & l & post & Hsplit & _ & Hl & ->)|[_ ->]]; [right|by left].
  exists l. split; [rewrite Hsplit; apply list_elem_of_middle|].
  by apply line_test_lookup.
Qed.

(** X1: on an array of any length whose cells are [undefined], [null] or
    strings (any strings, the empty one included), [calculateWinner] returns
    [null] or a non-empty string that the array holds at the three indices
    of one entry of [lines]; it never returns [undefined] or the empty
    string. *)
Theorem calculateWinner_null_or_stored (squares : list value) :
  calculateWinner squares = Null
  ∨ (truthy (calculateWinner squares) = true
     ∧ ∃ l, l ∈ lines
            ∧ squares !! l.1.1 = Some (calculateWinner squares)
            ∧ squares !! l.1.2 = Some (calculateWinner squares)
            ∧ squares !! l.2 = Some (calculateWinner squares)).
Proof.
  destruct (winner_line squares) as [|(l & Hin & Ht & H1 & H2 & H3)]; [by left|].
  right. split; [done|]. by exists l.
Qed.

Lemma count_drop_le v (a : list value) k : count v (drop k a) ≤ count v a.
Proof.
  rewrite <-(take_drop k a) at 2. unfold count.
  rewrite filter_app, length_app. lia.
Qed.

Lemma count_drop_mono v (a : list value) k k' :
  k ≤ k' → count v (drop k' a) ≤ count v (drop k a).
Proof.
  intros Hk. replace k' with (k + (k' - k)) by lia.
  rewrite <-drop_drop. apply count_drop_le.
Qed.

Lemma count_drop_lookup v (a : list value) i :
  a !! i = Some v → count v (drop i a) = S (count v (drop (S i) a)).
Proof.
  intros Hi. rewrite (drop_S _ _ _ Hi). unfold count.
  by rewrite filter_cons_True.
Qed.

Lemma count_three v (a : list value) i j k :
  i < j → j < k →
  a !! i = Some v → a !! j = Some v → a !! k = Some v →
  3 ≤ count v a.
Proof.
  intros Hij Hjk Hi Hj Hk.
  pose proof (count_drop_le v a i).
  pose proof (count_drop_lookup v a i Hi).
  pose proof (count_drop_mono v a (S i) j ltac:(lia)).
  pose proof (count_drop_lookup v a j Hj).
  pose proof (count_drop_mono v a (S j) k ltac:(lia)).
  pose proof (count_drop_lookup v a k Hk).
  lia.
Qed.



Lemma scan_agree squares squares' ls :
  Forall (λ l, l.1.1 < 9 ∧ l.1.2 < 9 ∧ l.2 < 9) ls →
  (∀ i, i < 9 → get squares i = get squares' i) →
  scan squares ls = scan squares' ls.
Proof.
  intros Hls Hagree. induction Hls as [|[[a b] c] ls (Ha & Hb & Hc) _ IH].
  - done.
  - cbn [scan]. unfold line_test. simpl in *.
    by rewrite !(Hagree a), !(Hagree b), !(Hagree c), IH.
Qed.

(** X3: [calculateWinner] reads the cells 0 to 8 only: two arrays that read
    the same at these nine indices (they may differ in length and in what
    they hold further on) have the same winner, so an array and its first
    nine cells have the same winner. *)
Theorem calculateWinner_reads_nine_cells (squares squares' : list value) :
  (∀ i, i < 9 → get squares i = get squares' i) →
  calculateWinner squares = calculateWinner squares'
  ∧ calculateWinner (take 9 squares) = calculateWinner squares.
Proof.
  assert (Forall (λ l, l.1.1 < 9 ∧ l.1.2 < 9 ∧ l.2 < 9) lines) as Hlines.
  { apply Forall_forall. intros l Hin.
    destruct (lines_increasing l Hin) as (? & ? & ?). lia. }
  intros Hagree. split; [by apply scan_agree|].
  apply scan_agree; [done|].
  intros i Hi. unfold get. by rewrite lookup_take_lt.
Qed.

Lemma calculateWinner_reads_nine_cells_witness :
  (∀ i, i < 9 → get (top_row_X ++ [Str "O"]) i = get top_row_X i)
  ∧ calculateWinner (top_row_X ++ [Str "O"]) = calculateWinner top_row_X
  ∧ calculateWinner (take 9 (top_row_X ++ [Str "O"]))
    = calculateWinner (top_row_X ++ [Str "O"]).
Proof.
  assert (∀ i, i < 9 → get (top_row_X ++ [Str "O"]) i = get top_row_X i) as H.
  { intros i Hi. do 9 (destruct i as [|i]; [reflexivity|]). lia. }
  split; [exact H|].
  exact (calculateWinner_reads_nine_cells (top_row_X ++ [Str "O"]) top_row_X H).
Defined.

(** ** Assignment into an array, and clicks on arbitrary arrays *)

Lemma length_set (a : list value) i v : length (set a i v) = length a `max` S i.
Proof.
  revert a. induction i as [|i IH]; intros [|x a]; simpl; try lia.
  - specialize (IH []). simpl in IH. lia.
  - specialize (IH a). lia.
Qed.

Lemma get_set_eq (a : list value) i v : get (set a i v) i = v.
Proof.
  revert a. induction i as [|i IH]; intros [|x a]; simpl; try done.
  - apply (IH []).
  - apply (IH a).
Qed.

Lemma get_set_ne (a : list value) i j v : i ≠ j → get (set a i v) j = get a j.
Proof.
  revert a j. induction i as [|i IH]; intros [|x a] [|j] Hij; try done.
  - change (get (set [] i v) j = get [] (S j)).
    rewrite IH by lia. unfold get. by rewrite !lookup_nil.
  - change (get (set a i v) j = get a j). apply IH. lia.
Qed.

Lemma handleClick_accept_set {St : Type} (onPlay : loc → St → St)
    (h : gmap positive (list value)) s next squares i sq :
  h !! squares = Some sq →
  truthy (get sq i) || truthy (calculateWinner sq) = false →
  handleClick onPlay next squares i (h, s) =
  Some (<[fresh (dom h) := set sq i (Str (if next then "X" else "O"))]> h,
        onPlay (fresh (dom h)) s).
Proof.
  intros Hsq Hc. unfold handleClick, slice, store, alloc; simpl.
  rewrite Hsq; simpl. rewrite Hc; simpl.
  rewrite lookup_insert_eq; simpl.
  by rewrite insert_insert_eq.
Qed.

(** X4: for an array of the store of any length whose cells are
    [undefined], [null] or strings, and an array index [i] (below
    [2^32 - 1]), a click that passes the test of [handleClick] hands
    [onPlay] a new array that reads the mark at [i] and reads as the
    displayed array at every other index; its length is the larger of the
    old length and [i+1] (an index past the end extends the copy), and every
    array that was in the store is left as it was. *)
Theorem handleClick_any_array
    {St : Type} (onPlay : loc → St → St)
    (h : gmap positive (list value)) (s : St)
    (squares : loc) (sq : list value) (next : bool) (i : nat) :
  h !! squares = Some sq →
  array_index i →
  truthy (get sq i) = false →
  truthy (calculateWinner sq) = false →
  ∃ (nextSquares : loc) (sq' : list value),
    handleClick onPlay next squares i (h, s)
    = Some (<[nextSquares := sq']> h, onPlay nextSquares s)
    ∧ h !! nextSquares = None
    ∧ get sq' i = Str (if next then "X" else "O")
    ∧ (∀ j, j ≠ i → get sq' j = get sq j)
    ∧ length sq' = length sq `max` S i
    ∧ (∀ l a, h !! l = Some a → (<[nextSquares := sq']> h) !! l = Some a).
Proof.
  intros Hsq Hidx Hcell Hwin.
  assert (h !! fresh (dom h) = None) as Hfresh by apply not_elem_of_dom, is_fresh.
  eexists _, _. split_and!.
  - apply handleClick_accept_set; [done|]. by rewrite Hcell, Hwin.
  - done.
  - apply get_set_eq.
  - intros j Hj. by apply get_set_ne.
  - apply length_set.
  - intros l a Hl. rewrite lookup_insert_ne; [done|]. congruence.
Qed.

Lemma handleClick_any_array_witness :
  short_store !! board0 = Some short_array
  ∧ array_index 4
  ∧ ∃ (nextSquares : loc) (sq' : list value),
      handleClick record_call false board0 4 (short_store, [])
      = Some (<[nextSquares := sq']> short_store, record_call nextSquares [])
      ∧ short_store !! nextSquares = None
      ∧ get sq' 4 = Str "O"
      ∧ (∀ j, j ≠ 4 → get sq' j = get short_array j)
      ∧ length sq' = length short_array `max` 5
      ∧ (∀ l a, short_store !! l = Some a →
                (<[nextSquares := sq']> short_store) !! l = Some a).
Proof.
  split; [by_decision|]. split; [by_decision|].
  apply (handleClick_any_array record_call short_store [] board0 short_array false 4).
  - by_decision.
  - by_decision.
  - reflexivity.
  - reflexivity.
Defined.

Example set_past_the_end :
  set short_array 4 (Str "O") = [Str "X"; Null; Undefined; Undefined; Str "O"].
Proof. reflexivity. Qed.

(** ** [handlePlay] from any state *)

Lemma handlePlay_at_tip s g :
  length (history g) ≤ currentMove g + 1 →
  history (handlePlay s g) = history g ++ [s].
Proof. intros Hk. unfold handlePlay; simpl. by rewrite take_ge. Qed.

(** X5: whatever the state before it (also one whose index points past the
    history), [handlePlay s] leaves an index that points at the last entry
    of the history, and that entry is [s]: the board displayed next is the
    array just passed. *)
Theorem handlePlay_displays_new_array (s : loc) (g : game) :
  currentMove (handlePlay s g) < length (history (handlePlay s g))
  ∧ currentMove (handlePlay s g) + 1 = length (history (handlePlay s g))
  ∧ currentSquares (handlePlay s g) = Some s
  ∧ last (history (handlePlay s g)) = Some s.
Proof.
  pose proof (handlePlay_length s g) as Hlen.
  split_and!; [lia..| |].
  - unfold currentSquares, handlePlay; simpl.
    rewrite length_app; simpl.
    rewrite lookup_app_r by lia.
    by replace (_ - _) with 0 by lia.
  - unfold handlePlay; simpl. apply last_snoc.
Qed.

Lemma replay_tip g ss :
  ss ≠ [] → currentMove (replay g ss) + 1 = length (history (replay g ss)).
Proof.
  unfold replay. destruct ss as [|s ss _] using rev_ind; [done|]. intros _.
  rewrite foldl_app; cbn [foldl]. by rewrite handlePlay_length.
Qed.

Lemma replay_history g ss :
  length (history g) ≤ currentMove g + 1 →
  history (replay g ss) = history g ++ ss.
Proof.
  unfold replay. revert g. induction ss as [|s ss IH]; intros g Hk; cbn [foldl].
  - by rewrite app_nil_r.
  - pose proof (handlePlay_length s g) as Hlen.
    rewrite IH by lia. rewrite (handlePlay_at_tip s g Hk).
    by rewrite <-app_assoc.
Qed.

(** X6: from a state whose index is the last one of the history (or lies
    past it), successive calls of [handlePlay] drop nothing: the history is
    the old one followed by the arrays passed, in order, and after at least
    one call the index is the last one. *)
Theorem replay_appends (g : game) (ss : list loc) :
  length (history g) ≤ currentMove g + 1 →
  history (replay g ss) = history g ++ ss
  ∧ (ss ≠ [] → currentMove (replay g ss) + 1 = length (history g ++ ss)).
Proof.
  intros Hk. split; [by apply replay_history|].
  intros Hss. rewrite <-(replay_history g ss Hk). by apply replay_tip.
Qed.

Lemma replay_appends_witness :
  length (history initial.2) ≤ currentMove initial.2 + 1
  ∧ history (replay initial.2 [2; 3; 4]%positive)
    = history initial.2 ++ [2; 3; 4]%positive
  ∧ ([2; 3; 4]%positive ≠ [] →
     currentMove (replay initial.2 [2; 3; 4]%positive) + 1
     = length (history initial.2 ++ [2; 3; 4]%positive)).
Proof.
  split; [vm_compute; lia|].
  apply (replay_appends initial.2 [2; 3; 4]%positive). vm_compute; lia.
Defined.

Lemma parity_succ k :
  bool_decide ((k + 1) mod 2 = 0) = negb (bool_decide (k mod 2 = 0)).
Proof.
  pose proof (Nat.div_mod_eq k 2). pose proof (Nat.div_mod_eq (k + 1) 2).
  pose proof (Nat.mod_upper_bound k 2). pose proof (Nat.mod_upper_bound (k + 1) 2).
  repeat case_bool_decide; simpl; try done; lia.
Qed.

(** X7: when the index points into the history, [handlePlay] passes the
    turn to the other player. *)
Theorem handlePlay_swaps_turn (s : loc) (g : game) :
  currentMove g < length (history g) →
  xIsNext (handlePlay s g) = negb (xIsNext g).
Proof.
  intros Hk. unfold xIsNext.
  rewrite (handlePlay_currentMove s g Hk). apply parity_succ.
Qed.

Lemma handlePlay_swaps_turn_witness :
  currentMove three_moves < length (history three_moves)
  ∧ xIsNext (handlePlay 9%positive three_moves) = negb (xIsNext three_moves).
Proof.
  split; [vm_compute; lia|].
  apply (handlePlay_swaps_turn 9%positive three_moves). vm_compute; lia.
Defined.

(** ** The list of move buttons *)

Lemma moves_lookup g k :
  k < length (history g) → moves g !! k = Some (k, description k, k).
Proof.
  intros Hk. unfold moves. rewrite list_lookup_imap.
  by destruct (lookup_lt_is_Some_2 (history g) k Hk) as [l ->].
Qed.

Lemma moves_elem g b :
  b ∈ moves g → ∃ k, k < length (history g) ∧ b = (k, description k, k).
Proof.
  intros (k & Hk)%list_elem_of_lookup.
  assert (k < length (history g)) as Hlt.
  { apply lookup_lt_Some in Hk. unfold moves in Hk. by rewrite length_imap in Hk. }
  exists k. split; [done|]. rewrite (moves_lookup g k Hlt) in Hk. congruence.
Qed.

(** X8: the move list has one button per history entry, in order; the
    button of entry [k] has key [k], label [description k] and jumps to
    [k]; so every button offered jumps to an existing entry, and a click on
    it is [jumpTo] of that entry, with the store untouched. *)
Theorem moves_buttons (g : game) :
  length (moves g) = length (history g)
  ∧ (∀ k, k < length (history g) → moves g !! k = Some (k, description k, k))
  ∧ (∀ b, b ∈ moves g →
       b.2 < length (history g)
       ∧ ∀ h : gmap positive (list value),
           dispatch (MoveClick b.2) (h, g) = Some (h, jumpTo b.2 g)).
Proof.
  split_and!.
  - unfold moves. by rewrite length_imap.
  - apply moves_lookup.
  - intros b (k & Hk & ->)%moves_elem. simpl. split; [done|].
    intros h. by rewrite bool_decide_eq_true_2.
Qed.

Lemma description_inj m n : description m = description n → m = n.
Proof.
  unfold description. repeat case_bool_decide; intros Heq.
  - apply (inj pretty). by simplify_eq/=.
  - by simplify_eq/=.
  - by simplify_eq/=.
  - lia.
Qed.

(** X9: the labels of the move buttons tell the entries apart: two entries
    have the same label only if they are the same entry, the label of entry
    0 is ["Go to game start"] and no other entry has it; the keys of the
    list items are pairwise distinct as well. *)
Theorem moves_labels_distinct (g : game) :
  (∀ m n, description m = description n → m = n)
  ∧ (∀ m, description m = "Go to game start" ↔ m = 0)
  ∧ NoDup ((λ b, b.1.2) <$> moves g)
  ∧ NoDup ((λ b, b.1.1) <$> moves g).
Proof.
  assert (moves g = (λ k, (k, description k, k)) <$> seq 0 (length (history g)))
    as Hseq by apply imap_seq_0.
  split_and!.
  - apply description_inj.
  - intros m. split; [|by intros ->]. apply (description_inj m 0).
  - rewrite Hseq, <-list_fmap_compose.
    apply (NoDup_fmap_2 (A:=nat) (B:=string)); [|apply NoDup_seq].
    intros m n. apply description_inj.
  - rewrite Hseq, <-list_fmap_compose.
    apply (NoDup_fmap_2 (A:=nat) (B:=nat)); [|apply NoDup_seq].
    by intros m n.
Qed.

(** ** Arrays in the store are never changed *)

Lemma dispatch_store_grows e (h h' : gmap positive (list value)) g g' :
  dispatch e (h, g) = Some (h', g') →
  ∀ l a, h !! l = Some a → h' !! l = Some a.
Proof.
  intros Hd l a Hl. destruct e as [i|move]; simpl in Hd.
  - case_bool_decide; [|done].
    destruct (currentSquares g) as [squares|]; [|done].
    change (handleClick handlePlay (xIsNext g) squares i (h, g) = Some (h', g')) in Hd.
    destruct (h !! squares) as [sq|] eqn:Hsq;
      [|by unfold handleClick in Hd; rewrite Hsq in Hd].
    destruct (truthy (get sq i) || truthy (calculateWinner sq)) eqn:Hc.
    + rewrite (handleClick_reject _ _ _ _ _ _ sq Hsq Hc) in Hd. by simplify_eq.
    + rewrite (handleClick_accept_set _ _ _ _ _ _ sq Hsq Hc) in Hd. simplify_eq.
      rewrite lookup_insert_ne; [done|].
      intros Heq. pose proof (is_fresh (dom h)) as Hfresh.
      rewrite Heq in Hfresh. apply Hfresh, elem_of_dom. by eexists.
  - case_bool_decide; [|done]. by simplify_eq.
Qed.

(** X10: no sequence of clicks changes an array that is already in the
    store: an array read before the clicks reads the same after them, so
    the boards of earlier moves stay as they were recorded, whatever is
    played afterwards. *)
Theorem run_keeps_stored_arrays (es : list event) (w w' : gmap positive (list value) * game) :
  run es w = Some w' →
  ∀ l a, w.1 !! l = Some a → w'.1 !! l = Some a.
Proof.
  revert w. induction es as [|e es IH]; intros w Hrun l a Hl; simpl in Hrun.
  - by simplify_eq.
  - destruct (dispatch e w) as [w1|] eqn:Hd; [|done]. simpl in Hrun.
    apply (IH w1 Hrun). destruct w as [h g], w1 as [h1 g1].
    by eapply dispatch_store_grows.
Qed.

Lemma run_keeps_stored_arrays_witness :
  run draw_clicks initial = Some drawn
  ∧ initial.1 !! board0 = Some (replicate 9 Null)
  ∧ drawn.1 !! board0 = Some (replicate 9 Null).
Proof.
  assert (run draw_clicks initial = Some drawn) as Hrun by (vm_compute; reflexivity).
  split; [exact Hrun|]. split; [by_decision|].
  apply (run_keeps_stored_arrays draw_clicks initial drawn Hrun). by_decision.
Defined.

(** ** States reached by clicks *)

Lemma filled_le_length (a : list value) : filled a ≤ length a.
Proof. apply length_filter. Qed.

Lemma filled_zero (a : list value) : filled a = 0 → a = replicate (length a) Null.
Proof.
  unfold filled. induction a as [|x a IH]; [done|].
  rewrite filter_cons. case_decide as Hx; simpl; [done|].
  intros Hf. rewrite <-IH by done. f_equal.
  by destruct (decide (x = Null)).
Qed.

Lemma filled_full (a : list value) i :
  filled a = length a → i < length a → get a i ≠ Null.
Proof.
  intros Hf Hi Hnull. apply get_Null_lookup in Hnull.
  assert (filled a < length a); [|lia].
  apply (length_filter_lt _ _ Null); [by eapply list_elem_of_lookup_2|]. by intros ?.
Qed.

(** X11: in every state reached by clicks, the page can be rendered and
    every button it offers can be handled: the displayed entry exists, it
    is a snapshot of the store, each of the nine square clicks and each
    click on an existing move button yields a next state. *)
Theorem reachable_clicks_handled (h : gmap positive (list value)) (g : game) :
  reachable (h, g) →
  (∃ l a, currentSquares g = Some l ∧ h !! l = Some a ∧ snapshot a)
  ∧ (∀ i, i < 9 → is_Some (dispatch (SquareClick i) (h, g)))
  ∧ (∀ move, move < length (history g) → is_Some (dispatch (MoveClick move) (h, g))).
Proof.
  intros (Hk & Hent & _)%reachable_play_inv; simpl in *.
  destruct (lookup_lt_is_Some_2 (history g) (currentMove g) Hk) as [l Hl].
  destruct (Hent _ l Hl) as (a & Ha & Hs & _).
  split_and!.
  - by exists l, a.
  - intros i Hi. unfold dispatch. rewrite bool_decide_eq_true_2 by done.
    unfold currentSquares. rewrite Hl.
    change (is_Some (handleClick handlePlay (xIsNext g) l i (h, g))).
    destruct (truthy (get a i) || truthy (calculateWinner a)) eqn:Hc.
    + by rewrite (handleClick_reject _ _ _ _ _ _ a Ha Hc).
    + by rewrite (handleClick_accept_set _ _ _ _ _ _ a Ha Hc).
  - intros move Hm. unfold dispatch. by rewrite bool_decide_eq_true_2.
Qed.

Lemma played_reachable : reachable (played.1, played.2).
Proof.
  apply (run_reachable two_clicks initial); [apply reachable_initial|].
  vm_compute. reflexivity.
Qed.

Lemma won_reachable : reachable (won.1, won.2).
Proof.
  apply (run_reachable win_clicks initial); [apply reachable_initial|].
  vm_compute. reflexivity.
Qed.

Lemma drawn_reachable : reachable (drawn.1, drawn.2).
Proof.
  apply (run_reachable draw_clicks initial); [apply reachable_initial|].
  vm_compute. reflexivity.
Qed.

Lemma reachable_clicks_handled_witness :
  reachable (won.1, won.2)
  ∧ (∃ l a, currentSquares won.2 = Some l ∧ won.1 !! l = Some a ∧ snapshot a)
  ∧ (∀ i, i < 9 → is_Some (dispatch (SquareClick i) (won.1, won.2)))
  ∧ (∀ move, move < length (history won.2) →
             is_Some (dispatch (MoveClick move) (won.1, won.2))).
Proof.
  split; [exact won_reachable|].
  exact (reachable_clicks_handled won.1 won.2 won_reachable).
Defined.

Lemma reachable_entry (h : gmap positive (list value)) g n :
  reachable (h, g) → n < length (history g) →
  ∃ l, history g !! n = Some l ∧ entry_ok h n l.
Proof.
  intros (_ & Hent & _)%reachable_play_inv Hn; simpl in *.
  destruct (lookup_lt_is_Some_2 (history g) n Hn) as [l Hl].
  exists l. split; [done|]. by apply Hent.
Qed.

(** X12: in every state reached by clicks the history has at least one and
    at most ten entries, its entry 0 is the empty board, and no two entries
    are the same array object. *)
Theorem reachable_history_shape (h : gmap positive (list value)) (g : game) :
  reachable (h, g) →
  1 ≤ length (history g) ≤ 10
  ∧ (∃ l, history g !! 0 = Some l ∧ h !! l = Some (replicate 9 Null))
  ∧ NoDup (history g).
Proof.
  intros Hr. pose proof (reachable_play_inv _ Hr) as (Hk & Hent & _); simpl in *.
  split_and!.
  - lia.
  - destruct (decide (length (history g) ≤ 10)) as [|Hgt]; [done|].
    destruct (reachable_entry h g 10 Hr) as (l & _ & a & _ & [Hlen _] & Hf & _); [lia|].
    pose proof (filled_le_length a). lia.
  - destruct (reachable_entry h g 0 Hr) as (l & Hl & a & Ha & [Hlen _] & Hf & _); [lia|].
    exists l. split; [done|]. by rewrite Ha, (filled_zero a Hf), Hlen.
  - apply NoDup_alt. intros n n' l Hn Hn'.
    destruct (Hent n l Hn) as (a & Ha & _ & Hf & _).
    destruct (Hent n' l Hn') as (a' & Ha' & _ & Hf' & _).
    congruence.
Qed.

Lemma reachable_history_shape_witness :
  reachable (drawn.1, drawn.2)
  ∧ 1 ≤ length (history drawn.2) ≤ 10
  ∧ (∃ l, history drawn.2 !! 0 = Some l ∧ drawn.1 !! l = Some (replicate 9 Null))
  ∧ NoDup (history drawn.2).
Proof.
  split; [exact drawn_reachable|].
  exact (reachable_history_shape drawn.1 drawn.2 drawn_reachable).
Defined.

Lemma half_parity k :
  (k mod 2 = 0 → (k + 1) / 2 = k / 2) ∧ (k mod 2 ≠ 0 → (k + 1) / 2 = k / 2 + 1).
Proof.
  split; intros Hk; [by apply half_even|by apply half_odd].
Qed.

(** X13: in every state reached by clicks the turn agrees with the board
    displayed: it is ["X"]'s turn exactly when the board holds as many
    ["X"] as ["O"], and ["O"]'s turn exactly when it holds one ["X"] more. *)
Theorem reachable_turn_matches_board (h : gmap positive (list value)) (g : game) :
  reachable (h, g) →
  ∃ l a, currentSquares g = Some l ∧ h !! l = Some a
         ∧ (xIsNext g = true ↔ count (Str "X") a = count (Str "O") a)
         ∧ (xIsNext g = false ↔ count (Str "X") a = count (Str "O") a + 1).
Proof.
  intros Hr. pose proof (reachable_play_inv _ Hr) as (Hk & _ & _); simpl in *.
  destruct (reachable_entry h g _ Hr Hk) as (l & Hl & a & Ha & _ & _ & HX & HO).
  exists l, a. split; [done|]. split; [done|].
  rewrite HX, HO. unfold xIsNext.
  destruct (half_parity (currentMove g)) as [He Ho].
  case_bool_decide as Hpar.
  - rewrite (He Hpar). split; split; intros; done || lia.
  - rewrite (Ho Hpar). split; split; intros; done || lia.
Qed.

Lemma reachable_turn_matches_board_witness :
  reachable (played.1, played.2)
  ∧ ∃ l a, currentSquares played.2 = Some l ∧ played.1 !! l = Some a
           ∧ (xIsNext played.2 = true ↔ count (Str "X") a = count (Str "O") a)
           ∧ (xIsNext played.2 = false
              ↔ count (Str "X") a = count (Str "O") a + 1).
Proof.
  split; [exact played_reachable|].
  exact (reachable_turn_matches_board played.1 played.2 played_reachable).
Defined.

(** X14: on a board with no empty cell left (history entry 9 displayed),
    every click on a square leaves the state as it is; when that board has
    no winner the status line still announces a next player, ["O"]: the
    code has no message for a draw. *)
Theorem full_board_is_final (h : gmap positive (list value)) (g : game) :
  reachable (h, g) →
  currentMove g = 9 →
  ∃ l a, currentSquares g = Some l ∧ h !! l = Some a
         ∧ (∀ i, i < 9 → get a i ≠ Null)
         ∧ (∀ i, i < 9 → dispatch (SquareClick i) (h, g) = Some (h, g))
         ∧ (calculateWinner a = Null → status (xIsNext g) a = "Next player: O").
Proof.
  intros Hr H9. pose proof (reachable_play_inv _ Hr) as (Hk & _ & _); simpl in *.
  destruct (reachable_entry h g _ Hr Hk) as (l & Hl & a & Ha & Hs & Hf & _).
  pose proof (proj1 Hs) as Hlen.
  assert (∀ i, i < 9 → get a i ≠ Null) as Hfull.
  { intros i Hi. apply filled_full; lia. }
  exists l, a. split_and!; [done..| |].
  - intros i Hi. unfold dispatch. rewrite bool_decide_eq_true_2 by done.
    unfold currentSquares. rewrite Hl.
    change (handleClick handlePlay (xIsNext g) l i (h, g) = Some (h, g)).
    apply (handleClick_reject _ _ _ _ _ _ a Ha).
    apply orb_true_iff. left.
    apply (truthy_cell _ (get_cell _ _ Hs Hi)). by apply Hfull.
  - intros Hnone. unfold status, xIsNext. by rewrite Hnone, H9.
Qed.

Lemma full_board_is_final_witness :
  reachable (drawn.1, drawn.2)
  ∧ currentMove drawn.2 = 9
  ∧ ∃ l a, currentSquares drawn.2 = Some l ∧ drawn.1 !! l = Some a
           ∧ (∀ i, i < 9 → get a i ≠ Null)
           ∧ (∀ i, i < 9 →
                dispatch (SquareClick i) (drawn.1, drawn.2)
                = Some (drawn.1, drawn.2))
           ∧ (calculateWinner a = Null →
              status (xIsNext drawn.2) a = "Next player: O").
Proof.
  split; [exact drawn_reachable|]. split; [vm_compute; reflexivity|].
  apply (full_board_is_final drawn.1 drawn.2 drawn_reachable).
  vm_compute; reflexivity.
Defined.

Example drawn_board :
  ∃ l, currentSquares drawn.2 = Some l
       ∧ drawn.1 !! l
         = Some [Str "X"; Str "O"; Str "X";
                 Str "X"; Str "O"; Str "O";
                 Str "O"; Str "X"; Str "X"]
       ∧ (calculateWinner <$> drawn.1 !! l) = Some Null.
Proof. eexists. split_and!; by vm_compute. Qed.

(** ** What a win ends *)

Lemma line_test_winner squares l :
  l ∈ lines → line_test squares l = true → calculateWinner squares ≠ Null.
Proof.
  intros Hin Hl. unfold calculateWinner.
  destruct (scan_cases squares lines)
    as [(pre & l' & post & _ & _ & Hl' & ->)|[Hall _]].
  - apply line_test_lookup in Hl' as (Ht & _). intros Hnull. by rewrite Hnull in Ht.
  - rewrite Forall_forall in Hall. specialize (Hall l Hin). congruence.
Qed.

Lemma move_inv_initial : move_inv initial.
Proof. intros [|n] l l' a a' _ Hn'; done. Qed.

Lemma move_inv_dispatch w e w' :
  play_inv w → move_inv w → dispatch e w = Some w' → move_inv w'.
Proof.
  destruct w as [h g]. intros (Hk & Hent & _) Hmove Hd; simpl in *.
  destruct e as [i|move]; simpl in Hd.
  - case_bool_decide as Hi; [|done].
    destruct (currentSquares g) as [squares|] eqn:Hcs; [|done].
    change (handleClick handlePlay (xIsNext g) squares i (h, g) = Some w') in Hd.
    destruct (Hent _ _ Hcs) as (a & Ha & Hs & _).
    destruct (truthy (get a i) || truthy (calculateWinner a)) eqn:Hc.
    { rewrite (handleClick_reject _ _ _ _ _ _ a Ha Hc) in Hd. by injection Hd as <-. }
    rewrite (handleClick_accept _ _ _ _ _ _ a Ha Hc) in Hd by (destruct Hs; lia).
    injection Hd as <-.
    apply (cell_falsy_cases _ _ Hs Hi) in Hc as [Hnull Hnone].
    assert (∀ l b, h !! l = Some b → l ≠ fresh (dom h)) as Hold.
    { intros l b Hl Heq. pose proof (is_fresh (dom h)) as Hfresh.
      rewrite <-Heq in Hfresh. apply Hfresh, elem_of_dom. by eexists. }
    intros n l l' b b' Hn Hn' Hb Hb'; cbn [fst snd] in *.
    apply handlePlay_lookup_inv in Hn as [[Hle Hn]|[-> ->]]; [| |done].
    + destruct (Hent n l Hn) as (b0 & Hb0 & _).
      rewrite lookup_insert_ne in Hb by (symmetry; by eapply Hold).
      apply handlePlay_lookup_inv in Hn' as [[Hle' Hn']|[Heq ->]]; [| |done].
      * destruct (Hent _ l' Hn') as (b1 & Hb1 & _).
        rewrite lookup_insert_ne in Hb' by (symmetry; by eapply Hold).
        exact (Hmove n l l' b b' Hn Hn' Hb Hb').
      * assert (n = currentMove g) as -> by lia.
        rewrite lookup_insert_eq in Hb'. injection Hb' as <-.
        unfold currentSquares in Hcs. assert (b = a) as -> by congruence.
        split; [done|]. exists i. by split_and!.
    + apply lookup_lt_Some in Hn'.
      rewrite handlePlay_length, handlePlay_currentMove in Hn' by done. lia.
  - case_bool_decide as Hm; [|done]. by injection Hd as <-.
Qed.

Lemma reachable_move_inv w : reachable w → move_inv w.
Proof.
  induction 1 as [|w e w' Hr IH Hd]; [apply move_inv_initial|].
  eapply move_inv_dispatch; [|done..]. by apply reachable_play_inv.
Qed.

(** X15: in every state reached by clicks, a history entry that shows a
    winner is the last entry of the history: no move is recorded after a
    win, also not after jumping back and playing again. *)
Theorem reachable_winner_is_last
    (h : gmap positive (list value)) (g : game) n l (a : list value) :
  reachable (h, g) →
  history g !! n = Some l →
  h !! l = Some a →
  calculateWinner a ≠ Null →
  n + 1 = length (history g).
Proof.
  intros Hr Hn Ha Hw.
  pose proof (lookup_lt_Some _ _ _ Hn) as Hlt.
  destruct (decide (n + 1 = length (history g))) as [|Hne]; [done|].
  destruct (reachable_entry h g (n + 1) Hr) as (l' & Hl' & a' & Ha' & _); [lia|].
  by destruct (reachable_move_inv _ Hr n l l' a a' Hn Hl' Ha Ha') as [Hnone _].
Qed.

Lemma reachable_winner_is_last_witness :
  reachable (won.1, won.2)
  ∧ history won.2 !! 5 = Some 6%positive
  ∧ won.1 !! 6%positive = Some top_row_X
  ∧ calculateWinner top_row_X ≠ Null
  ∧ 5 + 1 = length (history won.2).
Proof.
  split; [exact won_reachable|]. split; [vm_compute; reflexivity|].
  split; [vm_compute; reflexivity|]. split; [by_decision|].
  apply (reachable_winner_is_last won.1 won.2 5 6%positive top_row_X won_reachable).
  - vm_compute; reflexivity.
  - vm_compute; reflexivity.
  - by_decision.
Defined.

Lemma line_test_of_lookup squares l v :
  truthy v = true →
  squares !! l.1.1 = Some v → squares !! l.1.2 = Some v → squares !! l.2 = Some v →
  line_test squares l = true.
Proof.
  destruct l as [[a b] c]; simpl. intros Ht Ha Hb Hc.
  unfold line_test, strict_eq.
  rewrite (get_lookup _ _ _ Ha), (get_lookup _ _ _ Hb), (get_lookup _ _ _ Hc), Ht.
  by rewrite bool_decide_eq_true_2.
Qed.

(** A move that creates a winner puts its mark on the winning triple. *)
Lemma winner_after_move (a : list value) i v :
  calculateWinner a = Null →
  i < length a →
  calculateWinner (<[i := v]> a) ≠ Null →
  calculateWinner (<[i := v]> a) = v.
Proof.
  intros Hnone Hi Hw.
  destruct (winner_line (<[i := v]> a)) as [|(l & Hin & Ht & H1 & H2 & H3)]; [done|].
  destruct (decide (i = l.1.1)) as [->|N1].
  { rewrite list_lookup_insert_eq in H1 by done. congruence. }
  destruct (decide (i = l.1.2)) as [->|N2].
  { rewrite list_lookup_insert_eq in H2 by done. congruence. }
  destruct (decide (i = l.2)) as [->|N3].
  { rewrite list_lookup_insert_eq in H3 by done. congruence. }
  rewrite list_lookup_insert_ne in H1, H2, H3 by done.
  destruct (line_test_winner a l Hin); [|done].
  by eapply line_test_of_lookup.
Qed.

Lemma half_ge_3 n : (3 ≤ (n + 1) / 2 → 5 ≤ n) ∧ (3 ≤ n / 2 → 6 ≤ n).
Proof.
  pose proof (Nat.div_mod_eq n 2). pose proof (Nat.div_mod_eq (n + 1) 2).
  pose proof (Nat.mod_upper_bound n 2). pose proof (Nat.mod_upper_bound (n + 1) 2).
  lia.
Qed.

(** X16: in every state reached by clicks, a history entry [n] that shows
    a winner has [n ≥ 5], and its winner is the player who made move [n]:
    ["X"] when [n] is odd, ["O"] when [n] is even. *)
Theorem reachable_winner_moved_last
    (h : gmap positive (list value)) (g : game) n l (a : list value) :
  reachable (h, g) →
  history g !! n = Some l →
  h !! l = Some a →
  calculateWinner a ≠ Null →
  5 ≤ n
  ∧ ((n mod 2 = 1 ∧ calculateWinner a = Str "X")
     ∨ (n mod 2 = 0 ∧ calculateWinner a = Str "O")).
Proof.
  intros Hr Hn Ha Hw.
  pose proof (reachable_play_inv _ Hr) as (_ & Hent & _); cbn [fst snd] in *.
  destruct (Hent n l Hn) as (a0 & Ha0 & Hs & _ & HX & HO).
  assert (a0 = a) as -> by congruence.
  assert (5 ≤ n) as H5.
  { destruct (winner_line a) as [|(l3 & Hin & _ & H1 & H2 & H3)]; [done|].
    destruct (lines_increasing l3 Hin) as (Hab & Hbc & _).
    pose proof (count_three _ a _ _ _ Hab Hbc H1 H2 H3) as Hc.
    destruct (half_ge_3 n) as [HhX HhO].
    destruct (calculateWinner_cases a Hs) as [(m & [-> | ->] & Hm)|]; [| |done];
      rewrite Hm in Hc; lia. }
  split; [done|].
  pose proof (lookup_lt_Some _ _ _ Hn) as Hlt.
  destruct (reachable_entry h g (n - 1) Hr) as (p & Hp & b & Hb & [Hlen _] & _); [lia|].
  replace n with (n - 1 + 1) in Hn by lia.
  destruct (reachable_move_inv _ Hr (n - 1) p l b a Hp Hn Hb Ha)
    as (Hnone & i & Hi & _ & ->).
  rewrite (winner_after_move b i _ Hnone) by (done || lia).
  pose proof (parity_succ (n - 1)) as Hpar.
  replace (n - 1 + 1) with n in Hpar by lia.
  pose proof (Nat.mod_upper_bound n 2).
  unfold turn_mark. revert Hpar.
  repeat case_bool_decide; cbn [negb]; intros; try done.
  - right. by split.
  - left. split; [lia|done].
Qed.

Lemma reachable_winner_moved_last_witness :
  reachable (won.1, won.2)
  ∧ history won.2 !! 5 = Some 6%positive
  ∧ won.1 !! 6%positive = Some top_row_X
  ∧ calculateWinner top_row_X ≠ Null
  ∧ 5 ≤ 5
  ∧ ((5 mod 2 = 1 ∧ calculateWinner top_row_X = Str "X")
     ∨ (5 mod 2 = 0 ∧ calculateWinner top_row_X = Str "O")).
Proof.
  split; [exact won_reachable|]. split; [vm_compute; reflexivity|].
  split; [vm_compute; reflexivity|]. split; [by_decision|].
  apply (reachable_winner_moved_last won.1 won.2 5 6%positive top_row_X won_reachable).
  - vm_compute; reflexivity.
  - vm_compute; reflexivity.
  - by_decision.
Defined.

(** ** Marks are treated alike *)

Section renaming.

Context (f : value → value).
Hypothesis f_inj : Inj (=) (=) f.
Hypothesis f_undefined : f Undefined = Undefined.
Hypothesis f_null : f Null = Null.
Hypothesis f_truthy : ∀ v, truthy (f v) = truthy v.

Lemma get_fmap (squares : list value) i : get (f <$> squares) i = f (get squares i).
Proof. unfold get. rewrite list_lookup_fmap. by destruct (squares !! i). Qed.

Lemma line_test_fmap (squares : list value) l :
  line_test (f <$> squares) l = line_test squares l.
Proof.
  destruct l as [[a b] c]. unfold line_test, strict_eq.
  rewrite !get_fmap, f_truthy.
  f_equal; [f_equal|]; apply bool_decide_ext; split; try (by intros ->); apply f_inj.
Qed.

Lemma scan_fmap (squares : list value) ls :
  scan (f <$> squares) ls = f (scan squares ls).
Proof.
  induction ls as [|[[a b] c] ls IH]; cbn [scan]; [done|].
  rewrite line_test_fmap, get_fmap, IH. by destruct (line_test squares (a, b, c)).
Qed.

End renaming.

(** X17: [calculateWinner] does not depend on which values the marks are:
    for a one-to-one renaming of cell values that keeps [undefined] and
    [null] and keeps truthiness, the winner of the renamed array is the
    renamed winner of the array; exchanging ["X"] and ["O"] on a board
    exchanges the winner. *)
Theorem calculateWinner_renaming (f : value → value) (squares : list value) :
  Inj (=) (=) f →
  f Undefined = Undefined →
  f Null = Null →
  (∀ v, truthy (f v) = truthy v) →
  calculateWinner (f <$> squares) = f (calculateWinner squares).
Proof. intros. by apply scan_fmap. Qed.

Lemma calculateWinner_renaming_witness :
  Inj (=) (=) swap_marks
  ∧ calculateWinner (swap_marks <$> rows_O_then_X)
    = swap_marks (calculateWinner rows_O_then_X).
Proof.
  assert (Inj (=) (=) swap_marks) as Hinj.
  { intros v w. unfold swap_marks. repeat case_decide; congruence. }
  split; [exact Hinj|].
  apply (calculateWinner_renaming swap_marks rows_O_then_X Hinj).
  - reflexivity.
  - reflexivity.
  - intros v. unfold swap_marks. repeat case_decide; subst; reflexivity.
Defined.

Example swap_marks_winner :
  calculateWinner rows_O_then_X = Str "O"
  ∧ calculateWinner (swap_marks <$> rows_O_then_X) = Str "X".
Proof. by split. Qed.

(** ** Going back and forth *)

(** X18: after a move made from an entry of the history, a jump to the
    index displayed before the move shows the board displayed before it,
    and a jump forward to the next index shows the board of the move: the
    move can be undone and redone from the move list. *)
Theorem handlePlay_then_jumpTo (s : loc) (g : game) :
  currentMove g < length (history g) →
  let g' := handlePlay s g in
  currentSquares (jumpTo (currentMove g) g') = currentSquares g
  ∧ currentSquares (jumpTo (currentMove g + 1) (jumpTo (currentMove g) g'))
    = Some s
  ∧ currentMove g < length (history g')
  ∧ currentMove g + 1 < length (history g').
Proof.
  intros Hk g'. subst g'. unfold currentSquares, jumpTo; cbn [history currentMove].
  pose proof (handlePlay_length s g) as Hlen.
  pose proof (handlePlay_currentMove s g Hk) as Hcur.
  split_and!; [|by apply handlePlay_lookup_new|lia..].
  by apply handlePlay_lookup_old.
Qed.

Lemma handlePlay_then_jumpTo_witness :
  currentMove three_moves < length (history three_moves)
  ∧ currentSquares (jumpTo 1 (handlePlay 9%positive three_moves))
    = currentSquares three_moves
  ∧ currentSquares (jumpTo 2 (jumpTo 1 (handlePlay 9%positive three_moves)))
    = Some 9%positive.
Proof.
  split; [vm_compute; lia|].
  pose proof (handlePlay_then_jumpTo 9%positive three_moves) as H.
  destruct H as (H1 & H2 & _); [vm_compute; lia|]. by split.
Defined.

(** ** Clicking a square twice *)

Lemma currentSquares_handlePlay s g : currentSquares (handlePlay s g) = Some s.
Proof.
  unfold currentSquares, handlePlay; cbn [history currentMove].
  rewrite length_app; cbn [length].
  rewrite lookup_app_r by lia.
  by replace (_ - _) with 0 by lia.
Qed.

(** X19: in every state reached by clicks, a second click on the same
    square changes nothing: whether the first click placed a mark or was
    ignored, the state after it is kept by the second. *)
Theorem second_click_ignored (h : gmap positive (list value)) (g : game) (i : nat) :
  reachable (h, g) →
  i < 9 →
  ∃ w, dispatch (SquareClick i) (h, g) = Some w
       ∧ dispatch (SquareClick i) w = Some w.
Proof.
  intros Hr Hi. pose proof (reachable_play_inv _ Hr) as (Hk & _ & _); cbn [fst snd] in *.
  destruct (reachable_entry h g _ Hr Hk) as (l & Hl & a & Ha & Hs & _).
  pose proof (proj1 Hs) as Hlen.
  assert (∀ (h' : gmap positive (list value)) g' l' a',
            currentSquares g' = Some l' → h' !! l' = Some a' →
            truthy (get a' i) || truthy (calculateWinner a') = true →
            dispatch (SquareClick i) (h', g') = Some (h', g')) as Hrej.
  { intros h' g' l' a' Hcs Hl' Hc. unfold dispatch.
    rewrite bool_decide_eq_true_2 by done. rewrite Hcs.
    change (handleClick handlePlay (xIsNext g') l' i (h', g') = Some (h', g')).
    by apply (handleClick_reject _ _ _ _ _ _ a'). }
  destruct (truthy (get a i) || truthy (calculateWinner a)) eqn:Hc.
  - exists (h, g). split; by eapply Hrej.
  - exists (<[fresh (dom h) := <[i := Str (if xIsNext g then "X" else "O")]> a]> h,
            handlePlay (fresh (dom h)) g).
    split.
    + unfold dispatch. rewrite bool_decide_eq_true_2 by done.
      unfold currentSquares. rewrite Hl.
      apply (handleClick_accept handlePlay (xIsNext g) l i h g a); [done..|lia].
    + eapply Hrej.
      * apply currentSquares_handlePlay.
      * apply lookup_insert_eq.
      * rewrite get_insert_eq by lia. by destruct (xIsNext g).
Qed.

Lemma second_click_ignored_witness :
  reachable (played.1, played.2)
  ∧ ∃ w, dispatch (SquareClick 8) (played.1, played.2) = Some w
         ∧ dispatch (SquareClick 8) w = Some w.
Proof.
  split; [exact played_reachable|].
  apply (second_click_ignored played.1 played.2 8 played_reachable). lia.
Defined.
